(** * Robot kinematics core: forward kinematics, Jacobian, damped
    least-squares inverse kinematics and the dense linear solver.

    The JavaScript source computes on IEEE-754 binary64 numbers.  They are
    embedded as Rocq's primitive floats, whose operations are the binary64
    ones, so every definition below evaluates to the value the program
    computes.  [Math.cos], [Math.sin] and [Math.sqrt] are
    implementation-approximated in ECMAScript; they are kept abstract in the
    class [MathImpl]. *)

From Stdlib Require Import Floats ZArith Lia.
From stdpp Require Import base option list strings gmap.

#[local] Set Warnings "-inexact-float".
#[local] Open Scope float_scope.

(* ================================================================= *)
(** ** JavaScript numbers and the [Math] object *)

Module JS.

(** [Math.max] and [Math.min] on two arguments: NaN is contagious and
    [+0] is larger than [-0]. *)
Definition Math_max (x y : float) : float :=
  if is_nan x || is_nan y then nan
  else if x <? y then y
  else if y <? x then x
  else match classify x with NZero => y | _ => x end.

Definition Math_min (x y : float) : float :=
  if is_nan x || is_nan y then nan
  else if x <? y then x
  else if y <? x then y
  else match classify x with NZero => x | _ => y end.

(** [nzero x]: [x] is the number [-0]. *)
Definition nzero (x : float) : bool :=
  match classify x with NZero => true | _ => false end.

(** [below x y]: [x] is strictly before [y] in the order [Math.max] and
    [Math.min] select by, which puts [-0] before [+0]. *)
Definition below (x y : float) : bool :=
  (x <? y) || (nzero x && (x =? y) && negb (nzero y)).

Definition Math_abs (x : float) : float := abs x.
Definition Math_PI : float := 0x1.921fb54442d18p+1.

(** [isFinite] on a number. *)
Definition isFinite (x : float) : bool := is_finite x.

(** Truthiness of a number, as used by [||]: [0], [-0] and [NaN] are falsy. *)
Definition truthy (x : float) : bool := negb (is_zero x) && negb (is_nan x).

(** [a || dflt] where [a] is a possibly missing numeric property. *)
Definition or_default (a : option float) (dflt : float) : float :=
  match a with
  | Some x => if truthy x then x else dflt
  | None => dflt
  end.

(** The same for an integer-valued number. *)
Definition or_defaultZ (a : option Z) (dflt : Z) : Z :=
  match a with
  | Some x => if (x =? 0)%Z then dflt else x
  | None => dflt
  end.

(** Reading index [i] of an array of numbers inside an arithmetic
    expression: a missing element is [undefined], which coerces to NaN. *)
Definition get (l : list float) (i : nat) : float := default nan (l !! i).

(** [new Float64Array(n)]: [n] zeros. *)
Definition Float64Array (n : nat) : list float := replicate n 0.

(** Store into a typed array: an index past the end is ignored. *)
Definition set (l : list float) (i : nat) (v : float) : list float :=
  <[i := v]> l.

(** [for (let i = lo; i < hi; i++) body] as a state transformer. *)
Definition for_range {S : Type} (lo hi : nat) (body : nat → S → S) (s : S) : S :=
  foldl (λ s i, body i s) s (seq lo (hi - lo)).

(** [for (let i = hi - 1; i >= 0; i--) body]. *)
Definition for_down {S : Type} (hi : nat) (body : nat → S → S) (s : S) : S :=
  foldl (λ s i, body i s) s (reverse (seq 0 hi)).

(** The approximations of [Math.cos], [Math.sin] and [Math.sqrt] of the
    host engine. *)
Class MathImpl := {
  Math_cos : float → float;
  Math_sin : float → float;
  Math_sqrt : float → float
}.

(** One such engine: Taylor polynomials of degree 20 and 21, and the
    binary64 square root.  It serves to run the definitions on concrete
    inputs. *)
Fixpoint series (rounds : nat) (x2 term k acc : float) : float :=
  match rounds with
  | O => acc
  | S rounds' =>
      let term' := - term * x2 / (k * (k + 1)) in
      series rounds' x2 term' (k + 2) (acc + term')
  end.

Definition Math_taylor : MathImpl :=
  {| Math_cos x := series 10 (x * x) 1 1 1;
     Math_sin x := series 10 (x * x) x 2 x;
     Math_sqrt x := sqrt x |}.

End JS.
Import JS.

(* ================================================================= *)
(** ** Section 1 of the source: math utilities *)

Definition RAD : float := Math_PI / 180.

Section MathUtilities.
Context {math : MathImpl}.

Definition dhTransform (theta d a alpha : float) : list float :=
  let ct := Math_cos theta in let st := Math_sin theta in
  let ca := Math_cos alpha in let sa := Math_sin alpha in
  [ ct; - st * ca;  st * sa; a * ct;
    st;  ct * ca; - ct * sa; a * st;
    0;   sa;       ca;      d;
    0;   0;        0;       1 ].

Definition v3Len (v : list float) : float :=
  Math_sqrt (get v 0 * get v 0 + get v 1 * get v 1 + get v 2 * get v 2).

End MathUtilities.

Definition mat4Mul (A B : list float) : list float :=
  r ← seq 0 4;
  c ← seq 0 4;
  [ for_range 0 4 (λ k s, s + get A (r * 4 + k) * get B (k * 4 + c)) 0 ].

Definition mat4Identity : list float :=
  [1;0;0;0; 0;1;0;0; 0;0;1;0; 0;0;0;1].

Definition mat4Pos (M : list float) : list float := [get M 3; get M 7; get M 11].
Definition mat4AxisZ (M : list float) : list float := [get M 2; get M 6; get M 10].

(** Row-major views of a 4x4 matrix: the rotation block as three rows of
    three, and the bottom row. *)
Definition mat4Rot (M : list float) : list (list float) :=
  [ [get M 0; get M 1; get M 2];
    [get M 4; get M 5; get M 6];
    [get M 8; get M 9; get M 10] ].
Definition mat4Bottom (M : list float) : list float :=
  [get M 12; get M 13; get M 14; get M 15].

Definition v3Sub (a b : list float) : list float :=
  [get a 0 - get b 0; get a 1 - get b 1; get a 2 - get b 2].
Definition v3Cross (a b : list float) : list float :=
  [ get a 1 * get b 2 - get a 2 * get b 1;
    get a 2 * get b 0 - get a 0 * get b 2;
    get a 0 * get b 1 - get a 1 * get b 0 ].
Definition v3Add (a b : list float) : list float :=
  [get a 0 + get b 0; get a 1 + get b 1; get a 2 + get b 2].
Definition v3Scale (v : list float) (s : float) : list float :=
  [get v 0 * s; get v 1 * s; get v 2 * s].
Definition v3Dot (a b : list float) : float :=
  get a 0 * get b 0 + get a 1 * get b 1 + get a 2 * get b 2.

(** *** The linear solver *)

Module Solver.

(** The augmented matrix: an array of [Float64Array] rows. *)
Abbreviation matrix := (list (list float)).

Definition row (aug : matrix) (r : nat) : list float := default [] (aug !! r).
Definition at_ (aug : matrix) (r c : nat) : float := get (row aug r) c.
Definition put (aug : matrix) (r c : nat) (v : float) : matrix :=
  <[r := set (row aug r) c v]> aug.

(** The pivot threshold. *)
Definition eps : float := 1e-12.

(** Lines 51-56: build [aug = [A | b]]. *)
Definition build (A b : list float) (n : nat) : matrix :=
  for_range 0 n (λ i aug,
    let r0 := Float64Array (n + 1) in
    let r1 := for_range 0 n (λ j r, set r j (get A (i * n + j))) r0 in
    aug ++ [set r1 n (get b i)]) [].

(** Lines 58-62: search of the pivot row, state [(mx, mv)]. *)
Definition pivot_search (aug : matrix) (n col : nat) : nat * float :=
  for_range (col + 1) n (λ r '(mx, mv),
    let v := Math_abs (at_ aug r col) in
    if mv <? v then (r, v) else (mx, mv))
    (col, Math_abs (at_ aug col col)).

(** Line 63: [[aug[col], aug[mx]] = [aug[mx], aug[col]]]. *)
Definition swap_rows (aug : matrix) (col mx : nat) : matrix :=
  let a := row aug mx in
  let b := row aug col in
  <[mx := b]> (<[col := a]> aug).

(** Lines 66-69: elimination below the pivot [p]. *)
Definition eliminate (aug : matrix) (n col : nat) (p : float) : matrix :=
  for_range (col + 1) n (λ r aug,
    let f := at_ aug r col / p in
    for_range col (n + 1) (λ j aug,
      put aug r j (at_ aug r j - f * at_ aug col j)) aug) aug.

(** The matrix after the row exchange of column [col]. *)
Definition pivoted (aug : matrix) (n col : nat) : matrix :=
  swap_rows aug col (pivot_search aug n col).1.

(** Lines 58-69: one round of the column loop. *)
Definition column_step (n col : nat) (aug : matrix) : matrix :=
  let aug := pivoted aug n col in
  let p := at_ aug col col in
  if Math_abs p <? eps then aug
  else eliminate aug n col p.

(** The matrix after the rounds for columns [0 .. k-1]. *)
Definition forward (aug : matrix) (n k : nat) : matrix :=
  for_range 0 k (column_step n) aug.

(** The numerator of component [i]: lines 73-74. *)
Definition numerator (aug : matrix) (n i : nat) (x : list float) : list float :=
  for_range (i + 1) n (λ j x, set x i (get x i - at_ aug i j * get x j))
    (set x i (at_ aug i n)).

(** Lines 73-75: one round of back-substitution. *)
Definition back_step (aug : matrix) (n i : nat) (x : list float) : list float :=
  let x := numerator aug n i x in
  if eps <? Math_abs (at_ aug i i) then set x i (get x i / at_ aug i i)
  else set x i 0.

Definition back_substitute (aug : matrix) (n : nat) : list float :=
  for_down n (back_step aug n) (Float64Array n).

Definition solveLinear (A b : list float) (n : nat) : list float :=
  back_substitute (forward (build A b n) n n) n.

(** Row [i] of the augmented matrix, as lines 53-55 fill it. *)
Definition build_row (A b : list float) (n i : nat) : list float :=
  set (for_range 0 n (λ j r, set r j (get A (i * n + j))) (Float64Array (n + 1)))
    n (get b i).

(** Every coefficient of the first [n] columns is below the threshold. *)
Definition small (aug : matrix) (n : nat) : Prop :=
  ∀ r j, r < n → j < n → (Math_abs (at_ aug r j) <? eps) = true.

End Solver.
Import Solver.

(* ================================================================= *)
(** ** Section 2 of the source: robot kinematics *)

(** A DH row [[d, a, alpha]]; theta is the joint variable. *)
Definition DHRow : Type := float * float * float.

Record Preset := mkPreset {
  p_name : string;
  p_dh : list DHRow;
  p_limits : list (float * float)   (* degrees *)
}.

Definition preset_6dof : Preset :=
  mkPreset "6-DOF Industrial"
    [ (0.40, 0.00,  Math_PI / 2);
      (0.00, 0.80,  0);
      (0.00, 0.55,  0);
      (0.00, 0.00,  Math_PI / 2);
      (0.38, 0.00, - Math_PI / 2);
      (0.18, 0.00,  0) ]
    [ (-180,180); (-135,135); (-150,150); (-180,180); (-120,120); (-180,180) ].

Definition preset_ur5 : Preset :=
  mkPreset "UR5-like"
    [ (0.089, 0.00,   Math_PI / 2);
      (0.00,  -0.425, 0);
      (0.00,  -0.392, 0);
      (0.109, 0.00,   Math_PI / 2);
      (0.095, 0.00,  - Math_PI / 2);
      (0.082, 0.00,   0) ]
    [ (-360,360); (-360,360); (-360,360); (-360,360); (-360,360); (-360,360) ].

Definition preset_scara : Preset :=
  mkPreset "4-DOF SCARA"
    [ (0.35, 0.00,  0);
      (0.00, 0.70,  0);
      (0.00, 0.50,  Math_PI);
      (0.20, 0.00,  0) ]
    [ (-135,135); (-135,135); (-180,180); (-180,180) ].

Definition preset_3link : Preset :=
  mkPreset "3-Link Planar"
    [ (0.00, 0.80, 0);
      (0.00, 0.60, 0);
      (0.00, 0.40, 0) ]
    [ (-180,180); (-150,150); (-150,150) ].

(** The own properties of the object literal [PRESETS]. *)
Definition PRESETS : gmap string Preset :=
  <["6dof" := preset_6dof]> (<["ur5" := preset_ur5]>
    (<["scara" := preset_scara]> (<["3link" := preset_3link]> ∅))).

(** [PRESETS] is a plain object, so a key it does not own is looked up on
    [Object.prototype].  None of the values found there has a [dh]
    property. *)
Definition Object_prototype_keys : list string :=
  [ "constructor"; "__defineGetter__"; "__defineSetter__"; "hasOwnProperty";
    "__lookupGetter__"; "__lookupSetter__"; "isPrototypeOf";
    "propertyIsEnumerable"; "toString"; "valueOf"; "__proto__";
    "toLocaleString" ].

Inductive Property :=
  | Own (p : Preset)      (* one of the presets *)
  | Inherited             (* a value of [Object.prototype] *)
  | Undefined.

Definition PRESETS_get (key : string) : Property :=
  match PRESETS !! key with
  | Some p => Own p
  | None => if bool_decide (key ∈ Object_prototype_keys) then Inherited else Undefined
  end.

(** The exception a failed property read raises. *)
Inductive Error :=
  | TypeError (reading : string).

Record Robot := mkRobot {
  name : string;
  dh : list DHRow;
  nJoints : nat;
  limits : list (float * float);   (* radians *)
  angles : list float
}.

(** The body of the constructor once [p = PRESETS[presetKey]] is a preset. *)
Definition construct (p : Preset) : Robot :=
  {| name := p_name p;
     dh := p_dh p;
     nJoints := length (p_dh p);
     limits := (λ l, (l.1 * RAD, l.2 * RAD)) <$> p_limits p;
     angles := Float64Array (length (p_dh p)) |}.

(** [constructor(presetKey)]: [p.name] raises on [undefined], [p.dh.length]
    raises when [p] has no [dh]. *)
Definition Robot_new (presetKey : string) : Error + Robot :=
  match PRESETS_get presetKey with
  | Undefined => inl (TypeError "name")
  | Inherited => inl (TypeError "length")
  | Own p => inr (construct p)
  end.

(** What the constructor establishes; the methods below index [dh] and
    [limits] by [i < nJoints]. *)
Definition well_formed (r : Robot) : Prop :=
  nJoints r = length (dh r) ∧ length (limits r) = nJoints r
  ∧ length (angles r) = nJoints r.

Definition dh_row (r : Robot) (i : nat) : DHRow := default (nan, nan, nan) (dh r !! i).
Definition limit (r : Robot) (i : nat) : float * float := default (nan, nan) (limits r !! i).

(** The scalar clamp of line 143. *)
Definition clamp (lo hi x : float) : float := Math_max lo (Math_min hi x).

Definition clampAngles (r : Robot) (angles : list float) : list float :=
  for_range 0 (nJoints r) (λ i out,
    set out i (clamp (limit r i).1 (limit r i).2 (get angles i)))
    (Float64Array (length angles)).

Record Jacobian := mkJacobian { Jp : list float; Jr : list float; J_n : nat }.

Record IKResult := mkIKResult {
  ik_angles : list float;
  converged : bool;
  error : float;
  iterations : Z
}.

(** The options object of [solveIK]; a missing property is [None]. *)
Record Options := mkOptions {
  maxIter : option Z;
  tol : option float;
  lambda : option float
}.

(** [opts = {}]. *)
Definition no_options : Options := mkOptions None None None.

(** Lines 176-178: the parameters in effect. *)
Definition ik_maxIter (opts : Options) : Z := or_defaultZ (maxIter opts) 200.
Definition ik_tol (opts : Options) : float := or_default (tol opts) 0.001.
Definition ik_lambda (opts : Options) : float := or_default (lambda opts) 0.5.

(** The keys [PRESETS] owns. *)
Definition known_presets : list string := ["6dof"; "ur5"; "scara"; "3link"].

(** [angles] has the model's joint count and every component lies between
    the limits of its joint. *)
Definition within_limits (r : Robot) (angles : list float) : bool :=
  bool_decide (length angles = nJoints r)
  && forallb (λ '((lo, hi), x), (lo <=? x) && (x <=? hi)) (zip (limits r) angles).

(** No joint limit is a zero. *)
Definition nonzero_limits (r : Robot) : bool :=
  forallb (λ '(lo, hi), negb (is_zero lo) && negb (is_zero hi)) (limits r).

(** The joint limits are ordered. *)
Definition ordered_limits (r : Robot) : bool :=
  forallb (λ '(lo, hi), (lo <=? hi)) (limits r).

(** The entry [(J J^T)[r][c]] as line 196 accumulates it. *)
Definition gram_entry (Jp : list float) (n r c : nat) : float :=
  for_range 0 n (λ k s, s + get Jp (r * n + k) * get Jp (c * n + k)) 0.

(** ** Sample inputs, on which the statements below are run *)

Definition robot_3link : Robot := construct preset_3link.

(** A singular system: the third row of the matrix is zero. *)
Definition singular_A : list float :=
  [ 1; 0;     0;
    0; 1e-11; 0;
    0; 0;     0 ].
Definition singular_b : list float := [1; 1e308; 0].

(** A system whose second row is twice the first. *)
Definition dependent_A : list float := [1; 2; 2; 4].
Definition dependent_b : list float := [3; 6].

Definition all_finite (l : list float) : bool := forallb isFinite l.

(** A target out of reach of the planar arm, one within reach, and the end
    effector of the arm at the zero pose. *)
Definition far_target : list float := [5; 0.5; 0].
Definition near_target : list float := [1.5; 0.5; 0].
Definition home_target : list float := [1.7999999999999998; 0; 0].

(** Angles beyond the limits of the planar arm. *)
Definition wide_angles : list float := [10; -10; 1].

(** More angles than the planar arm has joints, and a vector with a NaN. *)
Definition long_angles : list float := [10; -10; 1; 5].
Definition nan_angles : list float := [nan; 0; 0].
Definition inner_angles : list float := [1; -1; 0.5].

(** A matrix all of whose coefficients are below the pivot threshold. *)
Definition tiny_A : list float := [1e-13; -1e-13; 0; 1e-13].

(** Options that are all falsy, and a negative iteration budget. *)
Definition falsy_options : Options := mkOptions (Some 0%Z) (Some nan) (Some (-0)).
Definition negative_budget : Options := mkOptions (Some (-3)%Z) None None.

Definition five_rounds : Options := mkOptions (Some 5%Z) None None.
Definition custom_options : Options := mkOptions (Some 5%Z) None (Some 0.4).
Definition loose_options : Options := mkOptions (Some 50%Z) (Some 0.3) (Some 0.4).

Section Kinematics.
Context {math : MathImpl}.

Definition frame (T : list (list float)) (i : nat) : list float := default [] (T !! i).

Definition fk (r : Robot) (angles : list float) : list (list float) :=
  for_range 0 (nJoints r) (λ i transforms,
    let '(d, a, alpha) := dh_row r i in
    let T := dhTransform (get angles i) d a alpha in
    transforms ++ [mat4Mul (frame transforms i) T])
    [mat4Identity].

(** The chain after the first [k] rounds of that loop. *)
Definition fk_upto (r : Robot) (angles : list float) (k : nat) : list (list float) :=
  for_range 0 k (λ i transforms,
    let '(d, a, alpha) := dh_row r i in
    let T := dhTransform (get angles i) d a alpha in
    transforms ++ [mat4Mul (frame transforms i) T])
    [mat4Identity].

Definition jacobian (r : Robot) (angles : list float) : Jacobian :=
  let T := fk r angles in
  let pe := mat4Pos (frame T (nJoints r)) in
  let n := nJoints r in
  let '(Jp, Jr) :=
    for_range 0 n (λ i '(Jp, Jr),
      let z := mat4AxisZ (frame T i) in
      let p := mat4Pos (frame T i) in
      let d := v3Sub pe p in
      let cp := v3Cross z d in
      (set (set (set Jp (0 * n + i) (get cp 0)) (1 * n + i) (get cp 1)) (2 * n + i) (get cp 2),
       set (set (set Jr (0 * n + i) (get z 0)) (1 * n + i) (get z 1)) (2 * n + i) (get z 2)))
      (Float64Array (3 * n), Float64Array (3 * n)) in
  mkJacobian Jp Jr n.

(** Column [i] of a row-major [3 x n] block. *)
Definition column (J : list float) (n i : nat) : list float :=
  [get J (0 * n + i); get J (1 * n + i); get J (2 * n + i)].

(** The end-effector position and the error of lines 183-186. *)
Definition end_effector (r : Robot) (angles : list float) : list float :=
  mat4Pos (frame (fk r angles) (nJoints r)).
Definition position_error (r : Robot) (target angles : list float) : list float :=
  v3Sub target (end_effector r angles).

(** Lines 192-198: [M = J J^T + lambda^2 I]. *)
Definition damped_matrix (Jp : list float) (n : nat) (lambda : float) : list float :=
  for_range 0 3 (λ r M,
    for_range 0 3 (λ c M,
      let s := for_range 0 n (λ k s, s + get Jp (r * n + k) * get Jp (c * n + k)) 0 in
      set M (r * 3 + c) (s + (if Nat.eqb r c then lambda * lambda else 0))) M)
    (Float64Array 9).

(** Lines 201-205: [angles[i] += (J^T v)[i]]. *)
Definition apply_update (Jp v : list float) (n : nat) (angles : list float) : list float :=
  for_range 0 n (λ i angles,
    let dq := for_range 0 3 (λ r dq, dq + get Jp (r * n + i) * get v r) 0 in
    set angles i (get angles i + dq)) angles.

(** Lines 189-206: the joint update of one iteration that did not converge. *)
Definition ik_update (r : Robot) (target : list float) (lambda : float)
    (angles : list float) : list float :=
  let err := position_error r target angles in
  let Jp := Jp (jacobian r angles) in
  let n := nJoints r in
  let M := damped_matrix Jp n lambda in
  let v := solveLinear M [get err 0; get err 1; get err 2] 3 in
  clampAngles r (apply_update Jp v n angles).

(** Lines 182-210: [k] is the number of rounds the [for] loop has left,
    [iter] its counter. *)
Fixpoint ik_loop (r : Robot) (target : list float) (maxIter : Z) (tol lambda : float)
    (k : nat) (iter : Z) (angles : list float) : IKResult :=
  match k with
  | O =>
      mkIKResult angles false (v3Len (position_error r target angles)) maxIter
  | S k' =>
      let err := position_error r target angles in
      let dist := v3Len err in
      if dist <? tol then mkIKResult (clampAngles r angles) true dist iter
      else ik_loop r target maxIter tol lambda k' (iter + 1)
             (ik_update r target lambda angles)
  end.

(** The solver with its three parameters given. *)
Definition solveIK_with (r : Robot) (target : list float) (start : list float)
    (maxIter : Z) (tol lambda : float) : IKResult :=
  ik_loop r target maxIter tol lambda (Z.to_nat maxIter) 0 start.

(** [solveIK(target, startAngles, opts = {})]; [startAngles] may be
    omitted. *)
Definition solveIK (r : Robot) (target : list float) (startAngles : option (list float))
    (opts : Options) : IKResult :=
  let maxIter := ik_maxIter opts in
  let tol := ik_tol opts in
  let lambda := ik_lambda opts in
  let angles := default (angles r) startAngles in
  solveIK_with r target angles maxIter tol lambda.

(** The distance of the end effector from the target. *)
Definition distance (r : Robot) (target angles : list float) : float :=
  v3Len (position_error r target angles).

(** The working angles after [k] rounds none of which converged. *)
Definition ik_iterate (r : Robot) (target : list float) (lambda : float)
    (start : list float) (k : nat) : list float :=
  Nat.iter k (ik_update r target lambda) start.

End Kinematics.

(* ================================================================= *)
(** * Properties *)

(** ** The order of binary64 numbers *)

Module FloatOrder.

(** *** Comparison of the specification floats *)

Ltac sf_cases :=
  repeat match goal with
         | s : bool |- _ => destruct s
         | a : spec_float |- _ => destruct a
         end; simpl in *; try done.

Ltac cmp_cases :=
  repeat match goal with
         | H : context [Pos.compare_cont Eq ?a ?b] |- _ =>
             change (Pos.compare_cont Eq a b) with (Pos.compare a b) in H
         | |- context [Pos.compare_cont Eq ?a ?b] =>
             change (Pos.compare_cont Eq a b) with (Pos.compare a b)
         | H : context [(?a ?= ?b)%Z] |- _ =>
             destruct (Z.compare_spec a b); simpl in *; try done; try lia
         | |- context [(?a ?= ?b)%Z] =>
             destruct (Z.compare_spec a b); simpl in *; try done; try lia
         | H : context [(?a ?= ?b)%positive] |- _ =>
             destruct (Pos.compare_spec a b); simpl in *; try done; try lia
         | |- context [(?a ?= ?b)%positive] =>
             destruct (Pos.compare_spec a b); simpl in *; try done; try lia
         end.

Lemma SFcompare_antisym a b : SFcompare b a = CompOpp <$> SFcompare a b.
Proof. sf_cases; cmp_cases. Qed.

Lemma SFcompare_Lt_trans a b c :
  SFcompare a b = Some Lt → SFcompare b c = Some Lt → SFcompare a c = Some Lt.
Proof. intros Hab Hbc. sf_cases; cmp_cases. Qed.

Lemma SFcompare_Eq_inv a b :
  SFcompare a b = Some Eq → a = b ∨ ∃ s t, a = S754_zero s ∧ b = S754_zero t.
Proof. intros Hab. sf_cases; cmp_cases; subst; eauto 10. Qed.

Lemma SFcompare_None a b : SFcompare a b = None ↔ a = S754_nan ∨ b = S754_nan.
Proof. split; [intros Hab|intros [->| ->]]; sf_cases; eauto. Qed.

Lemma SFcompare_refl a : a ≠ S754_nan → SFcompare a a = Some Eq.
Proof. intros Ha. sf_cases; cmp_cases. Qed.

(** *** Negation and products *)

Lemma binary_round_aux_opp prec emax s m e l :
  binary_round_aux prec emax (negb s) m e l = SFopp (binary_round_aux prec emax s m e l).
Proof.
  unfold binary_round_aux.
  destruct (shr_fexp prec emax m e l) as [mrs' e'].
  destruct (shr_fexp prec emax _ e' loc_Exact) as [mrs'' e''].
  destruct (shr_m mrs''); try done. by destruct (_ <=? _)%Z.
Qed.

Lemma SFmul_opp_l prec emax a b :
  SFmul prec emax (SFopp a) b = SFopp (SFmul prec emax a b).
Proof.
  destruct a as [sa|sa| |sa ma ea], b as [sb|sb| |sb mb eb]; simpl; try done;
    try (by destruct sa, sb).
  rewrite <-binary_round_aux_opp. by destruct sa, sb.
Qed.

(** Negating a factor negates the product, exactly. *)
Lemma mul_opp_l x y : (- x) * y = - (x * y).
Proof.
  apply Prim2SF_inj.
  rewrite opp_spec, !mul_spec, opp_spec. apply SFmul_opp_l.
Qed.

(** *** Comparison of the primitive floats *)

Lemma is_nan_spec x : is_nan x = true ↔ Prim2SF x = S754_nan.
Proof.
  unfold is_nan. rewrite FloatAxioms.eqb_spec. unfold SFeqb. split.
  - intros Hx. destruct (Prim2SF x) eqn:Hp; try done;
      by rewrite SFcompare_refl in Hx.
  - by intros ->.
Qed.

Lemma is_nan_false x : is_nan x = false ↔ Prim2SF x ≠ S754_nan.
Proof. rewrite <-is_nan_spec. by destruct (is_nan x). Qed.

Lemma classify_NZero x : classify x = NZero ↔ Prim2SF x = S754_zero true.
Proof.
  rewrite classify_spec. unfold SF64classify, SFclassify.
  destruct (Prim2SF x) as [[]|[]| |[] m e]; try done;
    by destruct (_ =? _)%Z.
Qed.

Lemma ltb_Lt x y : (x <? y) = true ↔ SFcompare (Prim2SF x) (Prim2SF y) = Some Lt.
Proof.
  rewrite FloatAxioms.ltb_spec. unfold SFltb.
  by destruct (SFcompare _ _) as [[]|].
Qed.

Lemma ltb_irrefl x : (x <? x) = false.
Proof.
  apply not_true_is_false. rewrite ltb_Lt. intros Hx.
  pose proof (SFcompare_antisym (Prim2SF x) (Prim2SF x)) as Ha.
  by rewrite Hx in Ha.
Qed.

Lemma ltb_asym x y : (x <? y) = true → (y <? x) = false.
Proof.
  intros Hxy. apply not_true_is_false. revert Hxy. rewrite !ltb_Lt. intros Hxy Hyx.
  pose proof (SFcompare_antisym (Prim2SF x) (Prim2SF y)) as Ha.
  by rewrite Hxy, Hyx in Ha.
Qed.

Lemma ltb_trans x y z : (x <? y) = true → (y <? z) = true → (x <? z) = true.
Proof. rewrite !ltb_Lt. apply SFcompare_Lt_trans. Qed.

Lemma ltb_not_nan x y : (x <? y) = true → is_nan x = false ∧ is_nan y = false.
Proof.
  rewrite ltb_Lt, !is_nan_false. intros Hxy.
  split; intros Hn; rewrite Hn in Hxy; simpl in Hxy; [done|].
  by destruct (Prim2SF x).
Qed.

(** Two numbers neither of which is below the other, and neither NaN,
    compare equal: they are the same number or two zeros. *)
Lemma not_ltb_Eq x y :
  is_nan x = false → is_nan y = false → (x <? y) = false → (y <? x) = false →
  SFcompare (Prim2SF x) (Prim2SF y) = Some Eq.
Proof.
  rewrite !is_nan_false. intros Hx Hy Hxy Hyx.
  apply not_true_iff_false in Hxy, Hyx. rewrite ltb_Lt in Hxy, Hyx.
  pose proof (SFcompare_antisym (Prim2SF x) (Prim2SF y)) as Ha.
  destruct (SFcompare (Prim2SF x) (Prim2SF y)) as [[]|] eqn:Hc; simpl in *; try done.
  apply SFcompare_None in Hc. tauto.
Qed.

Lemma Eq_cases x y :
  SFcompare (Prim2SF x) (Prim2SF y) = Some Eq →
  x = y ∨ ∃ s t, Prim2SF x = S754_zero s ∧ Prim2SF y = S754_zero t.
Proof.
  intros [Hxy|Hz]%SFcompare_Eq_inv; [left|by right].
  by apply Prim2SF_inj.
Qed.

(** *** [Math.max], [Math.min] and the order they select by *)

Lemma nzero_spec x : nzero x = true ↔ Prim2SF x = S754_zero true.
Proof.
  unfold nzero. rewrite <-classify_NZero. by destruct (classify x).
Qed.

Lemma match_nzero {A} x (a b : A) :
  match classify x with NZero => a | _ => b end = if nzero x then a else b.
Proof. unfold nzero. by destruct (classify x). Qed.

Lemma nzero_eq x y : nzero x = true → nzero y = true → x = y.
Proof. rewrite !nzero_spec. intros Hx Hy. apply Prim2SF_inj. congruence. Qed.

Lemma eqb_Eq x y : (x =? y) = true ↔ SFcompare (Prim2SF x) (Prim2SF y) = Some Eq.
Proof.
  rewrite FloatAxioms.eqb_spec. unfold SFeqb.
  by destruct (SFcompare _ _) as [[]|].
Qed.

Lemma not_nan_or x y : is_nan x = false → is_nan y = false → is_nan x || is_nan y = false.
Proof. by intros -> ->. Qed.

Lemma Math_max_below x y :
  is_nan x = false → is_nan y = false →
  Math_max x y = if below x y then y else x.
Proof.
  intros Hx Hy. unfold Math_max, below. rewrite not_nan_or by done.
  destruct (x <? y) eqn:Hxy; [done|].
  destruct (y <? x) eqn:Hyx; simpl.
  - assert ((x =? y) = false) as ->; [|by rewrite andb_false_r].
    apply not_true_is_false. rewrite eqb_Eq. apply ltb_Lt in Hyx.
    rewrite SFcompare_antisym, Hyx. done.
  - pose proof (not_ltb_Eq x y Hx Hy Hxy Hyx) as He.
    rewrite (proj2 (eqb_Eq x y) He), andb_true_r, match_nzero.
    destruct (nzero x) eqn:Hzx, (nzero y) eqn:Hzy; simpl; try done.
    by apply nzero_eq.
Qed.

Lemma Math_min_below x y :
  is_nan x = false → is_nan y = false →
  Math_min x y = if below x y then x else y.
Proof.
  intros Hx Hy. unfold Math_min, below. rewrite not_nan_or by done.
  destruct (x <? y) eqn:Hxy; [done|].
  destruct (y <? x) eqn:Hyx; simpl.
  - assert ((x =? y) = false) as ->; [|by rewrite andb_false_r].
    apply not_true_is_false. rewrite eqb_Eq. apply ltb_Lt in Hyx.
    rewrite SFcompare_antisym, Hyx. done.
  - pose proof (not_ltb_Eq x y Hx Hy Hxy Hyx) as He.
    rewrite (proj2 (eqb_Eq x y) He), andb_true_r, match_nzero.
    destruct (nzero x) eqn:Hzx, (nzero y) eqn:Hzy; simpl; try done.
    by apply nzero_eq.
Qed.

Lemma below_irrefl x : below x x = false.
Proof. unfold below. rewrite ltb_irrefl. by destruct (nzero x), (x =? x). Qed.

Lemma below_asym x y : below x y = true → below y x = false.
Proof.
  unfold below. intros [Hxy|Hz]%orb_true_iff.
  - rewrite (ltb_asym _ _ Hxy). simpl.
    assert ((y =? x) = false) as ->; [|by rewrite andb_false_r].
    apply not_true_is_false. rewrite eqb_Eq. apply ltb_Lt in Hxy.
    rewrite SFcompare_antisym, Hxy. done.
  - apply andb_true_iff in Hz as [[Hzx He]%andb_true_iff Hzy].
    apply negb_true_iff in Hzy. rewrite Hzy, andb_false_l, orb_false_r.
    apply not_true_is_false. rewrite ltb_Lt, SFcompare_antisym.
    apply eqb_Eq in He. by rewrite He.
Qed.

Lemma Math_max_nan_r x : Math_max x nan = nan.
Proof. unfold Math_max. by rewrite orb_true_r. Qed.

Lemma Math_min_nan_r x : Math_min x nan = nan.
Proof. unfold Math_min. by rewrite orb_true_r. Qed.

Lemma Math_max_is_nan x y : is_nan x || is_nan y = true → Math_max x y = nan.
Proof. unfold Math_max. by intros ->. Qed.

Lemma Math_min_is_nan x y : is_nan x || is_nan y = true → Math_min x y = nan.
Proof. unfold Math_min. by intros ->. Qed.

Lemma leb_Le x y :
  (x <=? y) = true ↔
  SFcompare (Prim2SF x) (Prim2SF y) = Some Lt ∨ SFcompare (Prim2SF x) (Prim2SF y) = Some Eq.
Proof.
  rewrite FloatAxioms.leb_spec. unfold SFleb.
  destruct (SFcompare _ _) as [[]|];
    (split; [intros Hx; try done; auto | intros [?|?]; done]).
Qed.

Lemma leb_not_nan x y : (x <=? y) = true → is_nan x = false ∧ is_nan y = false.
Proof.
  rewrite leb_Le, !is_nan_false. intros Hxy.
  split; intros Hn; rewrite Hn in Hxy; simpl in Hxy; [by destruct Hxy|].
  destruct (Prim2SF x); by destruct Hxy.
Qed.

Lemma leb_not_ltb x y : (x <=? y) = true → (y <? x) = false.
Proof.
  intros Hxy. apply not_true_is_false. revert Hxy. rewrite leb_Le, ltb_Lt.
  rewrite (SFcompare_antisym (Prim2SF x) (Prim2SF y)).
  intros [->| ->]; done.
Qed.

Lemma Prim2SF_zero : Prim2SF zero = S754_zero false.
Proof. reflexivity. Qed.

Lemma is_zero_spec x : is_zero x = true ↔ ∃ s, Prim2SF x = S754_zero s.
Proof.
  unfold is_zero. rewrite eqb_Eq, Prim2SF_zero. split.
  - destruct (Prim2SF x) as [s|[]| |[] m e]; by eauto.
  - by intros [s ->].
Qed.

(** A positive number is truthy. *)
Lemma truthy_positive x : (0 <? x) = true → truthy x = true.
Proof.
  intros Hx. unfold truthy.
  destruct (ltb_not_nan _ _ Hx) as [_ ->].
  destruct (is_zero x) eqn:Hz; [|done].
  apply is_zero_spec in Hz as [s Hz]. apply ltb_Lt in Hx.
  change 0%float with zero in Hx. by rewrite Prim2SF_zero, Hz in Hx.
Qed.

(** Two numbers that compare equal, one of them not a zero, are the
    same number. *)
Lemma Eq_not_zero x y :
  SFcompare (Prim2SF x) (Prim2SF y) = Some Eq → is_zero x = false → x = y.
Proof.
  intros [?|(s & t & Hx & Hy)]%Eq_cases Hz; [done|].
  apply not_true_iff_false in Hz. destruct Hz. apply is_zero_spec. eauto.
Qed.

Lemma below_not_zero x y :
  is_zero x = false → below x y = (x <? y).
Proof.
  intros Hz. unfold below. destruct (nzero x) eqn:Hn; [|by rewrite orb_false_r].
  apply nzero_spec in Hn. apply not_true_iff_false in Hz. destruct Hz.
  apply is_zero_spec. eauto.
Qed.

(** A number between the bounds is a fixed point of the clamp, unless a
    bound is a zero. *)
Lemma clamp_within lo hi x :
  (lo <=? x) = true → (x <=? hi) = true →
  is_zero lo = false → is_zero hi = false →
  clamp lo hi x = x.
Proof.
  intros Hlo Hhi Hzl Hzh. unfold clamp.
  destruct (leb_not_nan _ _ Hlo) as [Hnl Hnx].
  destruct (leb_not_nan _ _ Hhi) as [_ Hnh].
  rewrite (Math_min_below hi x), (below_not_zero hi x), (leb_not_ltb _ _ Hhi) by done.
  rewrite (Math_max_below lo x), (below_not_zero lo x) by done.
  destruct (lo <? x) eqn:Hlt; [done|].
  apply Eq_not_zero; [|done].
  apply leb_Le in Hlo as [Hl%ltb_Lt|He]; [congruence|done].
Qed.

Lemma leb_refl x : is_nan x = false → (x <=? x) = true.
Proof.
  rewrite is_nan_false, leb_Le. intros Hx. right. by apply SFcompare_refl.
Qed.

Lemma below_leb x y : below x y = true → (x <=? y) = true.
Proof.
  unfold below. rewrite leb_Le.
  intros [Hlt%ltb_Lt|[[_ He%eqb_Eq]%andb_true_iff _]%andb_true_iff]%orb_true_iff; auto.
Qed.

Lemma not_below_leb x y :
  is_nan x = false → is_nan y = false → below x y = false → (y <=? x) = true.
Proof.
  intros Hx Hy [Hlt _]%orb_false_iff. rewrite leb_Le.
  destruct (y <? x) eqn:Hyx; [left; by apply ltb_Lt|right].
  rewrite SFcompare_antisym, (not_ltb_Eq x y); done.
Qed.

(** With ordered bounds the clamp of a number (not NaN) lies between
    them. *)
Lemma clamp_range lo hi x :
  (lo <=? hi) = true → is_nan x = false →
  (lo <=? clamp lo hi x) = true ∧ (clamp lo hi x <=? hi) = true.
Proof.
  intros Hlh Hx. destruct (leb_not_nan _ _ Hlh) as [Hlo Hhi]. unfold clamp.
  rewrite (Math_min_below hi x) by done.
  destruct (below hi x) eqn:Hhx.
  - rewrite (Math_max_below lo hi) by done.
    destruct (below lo hi); split; done || by apply leb_refl.
  - rewrite (Math_max_below lo x) by done.
    destruct (below lo x) eqn:Hlx; split; try done.
    + by apply below_leb.
    + by apply not_below_leb.
    + by apply leb_refl.
Qed.

(** The scalar clamp is idempotent, for all bounds and all arguments. *)
Lemma clamp_idemp lo hi x : clamp lo hi (clamp lo hi x) = clamp lo hi x.
Proof.
  unfold clamp.
  destruct (is_nan hi || is_nan x) eqn:Hn1.
  { by rewrite (Math_min_is_nan _ _ Hn1), !Math_max_nan_r, Math_min_nan_r, Math_max_nan_r. }
  apply orb_false_iff in Hn1 as [Hhi Hx].
  destruct (is_nan lo) eqn:Hlo.
  { by rewrite !(Math_max_is_nan lo) by (by rewrite Hlo). }
  rewrite (Math_min_below hi x) by done.
  destruct (below hi x) eqn:Hhx.
  - rewrite (Math_max_below lo hi) by done.
    destruct (below lo hi) eqn:Hlh.
    + rewrite (Math_min_below hi hi), below_irrefl by done.
      by rewrite (Math_max_below lo hi), Hlh.
    + rewrite (Math_min_below hi lo) by done.
      destruct (below hi lo) eqn:Hhl.
      * by rewrite (Math_max_below lo hi), Hlh.
      * by rewrite (Math_max_below lo lo), below_irrefl.
  - rewrite (Math_max_below lo x) by done.
    destruct (below lo x) eqn:Hlx.
    + by rewrite (Math_min_below hi x), Hhx, (Math_max_below lo x), Hlx.
    + rewrite (Math_min_below hi lo) by done.
      destruct (below hi lo) eqn:Hhl.
      * rewrite (Math_max_below lo hi) by done.
        by rewrite (below_asym _ _ Hhl).
      * by rewrite (Math_max_below lo lo), below_irrefl.
Qed.

End FloatOrder.

(** ** Loops and typed arrays *)

#[local] Close Scope float_scope.

Section Loops.
Context {S : Type}.
Implicit Types (body : nat → S → S) (s : S).

Lemma for_range_empty lo hi body s : hi ≤ lo → for_range lo hi body s = s.
Proof. intros Hle. unfold for_range. by replace (hi - lo) with 0 by lia. Qed.

Lemma for_range_snoc lo hi body s :
  lo ≤ hi → for_range lo (Datatypes.S hi) body s = body hi (for_range lo hi body s).
Proof.
  intros Hle. unfold for_range.
  replace (Datatypes.S hi - lo) with (Datatypes.S (hi - lo)) by lia.
  rewrite seq_S, foldl_app. simpl. by replace (lo + (hi - lo)) with hi by lia.
Qed.

(** The invariant rule of the counting loop. *)
Lemma for_range_invariant (P : nat → S → Prop) lo hi body s :
  lo ≤ hi → P lo s →
  (∀ i s, lo ≤ i < hi → P i s → P (Datatypes.S i) (body i s)) →
  P hi (for_range lo hi body s).
Proof.
  intros Hle H0 Hstep. induction hi as [|hi IH].
  - assert (lo = 0) as -> by lia. by rewrite for_range_empty.
  - destruct (decide (lo = Datatypes.S hi)) as [->|Hne].
    + by rewrite for_range_empty.
    + rewrite for_range_snoc by lia. apply Hstep; [lia|].
      apply IH; [lia|]. intros i s' Hi. apply Hstep. lia.
Qed.

Lemma for_down_S hi body s :
  for_down (Datatypes.S hi) body s = for_down hi body (body hi s).
Proof. unfold for_down. by rewrite seq_S, reverse_app. Qed.

Lemma for_down_0 body s : for_down 0 body s = s.
Proof. done. Qed.

End Loops.

Lemma get_lookup l i x : l !! i = Some x → get l i = x.
Proof. unfold get. by intros ->. Qed.

Lemma length_set l i v : length (set l i v) = length l.
Proof. apply length_insert. Qed.

Lemma get_set_eq l i v : i < length l → get (set l i v) i = v.
Proof. intros Hi. unfold get, set. by rewrite list_lookup_insert_eq. Qed.

Lemma get_set_ne l i j v : i ≠ j → get (set l i v) j = get l j.
Proof. intros Hij. unfold get, set. by rewrite list_lookup_insert_ne. Qed.

Lemma length_Float64Array n : length (Float64Array n) = n.
Proof. apply length_replicate. Qed.

Lemma get_Float64Array n i : i < n → get (Float64Array n) i = 0%float.
Proof. intros Hi. unfold get, Float64Array. by rewrite lookup_replicate_2. Qed.

(** ** The DH transform *)

Section DHTransformFacts.
Context {math : MathImpl}.
#[local] Open Scope float_scope.

(** C2: [dhTransform theta d a alpha] is the row-major 4x4 matrix with
    rotation block [[cos θ, -sin θ·cos α, sin θ·sin α], [sin θ, cos θ·cos α,
    -cos θ·sin α], [0, sin α, cos α]], translation column
    [a·cos θ, a·sin θ, d] and bottom row [0, 0, 0, 1].  The source writes
    the two negated entries as [-st * ca] and [-ct * sa], which negate the
    factor; in binary64 that is the negated product. *)
Theorem dhTransform_matrix (theta d a alpha : float) :
  let M := dhTransform theta d a alpha in
  let ct := Math_cos theta in let st := Math_sin theta in
  let ca := Math_cos alpha in let sa := Math_sin alpha in
  length M = 16%nat
  ∧ mat4Rot M = [ [ct; - (st * ca);  st * sa];
                  [st;  ct * ca; - (ct * sa)];
                  [0;   sa;       ca] ]
  ∧ mat4Pos M = [a * ct; a * st; d]
  ∧ mat4Bottom M = [0; 0; 0; 1].
Proof.
  intros M ct st ca sa. rewrite <-!FloatOrder.mul_opp_l. by repeat split.
Qed.

End DHTransformFacts.

(** ** Forward kinematics *)

Section ForwardKinematics.
Context {math : MathImpl}.

Lemma fk_upto_all r angles : fk r angles = fk_upto r angles (nJoints r).
Proof. done. Qed.

Lemma fk_upto_S r angles k :
  fk_upto r angles (S k) =
    fk_upto r angles k ++
      [mat4Mul (frame (fk_upto r angles k) k)
         (dhTransform (get angles k) (dh_row r k).1.1 (dh_row r k).1.2 (dh_row r k).2)].
Proof.
  unfold fk_upto. rewrite for_range_snoc by lia.
  by destruct (dh_row r k) as [[d a] alpha].
Qed.

Lemma length_fk_upto r angles k : length (fk_upto r angles k) = S k.
Proof.
  induction k as [|k IH]; [done|].
  rewrite fk_upto_S, length_app, IH. simpl. lia.
Qed.

Lemma fk_upto_prefix r angles k i :
  i ≤ k → fk_upto r angles k !! i = fk_upto r angles i !! i.
Proof.
  induction k as [|k IH]; intros Hi.
  - by replace i with 0 by lia.
  - destruct (decide (i = S k)) as [->|Hne]; [done|].
    rewrite fk_upto_S, lookup_app_l by (rewrite length_fk_upto; lia).
    apply IH. lia.
Qed.

Lemma fk_upto_last r angles k :
  fk_upto r angles (S k) !! S k =
    Some (mat4Mul (frame (fk_upto r angles k) k)
      (dhTransform (get angles k) (dh_row r k).1.1 (dh_row r k).1.2 (dh_row r k).2)).
Proof.
  rewrite fk_upto_S, lookup_app_r by (rewrite length_fk_upto; lia).
  by rewrite length_fk_upto, Nat.sub_diag.
Qed.

Lemma length_fk r angles : length (fk r angles) = S (nJoints r).
Proof. apply length_fk_upto. Qed.

Lemma fk_lookup r angles i :
  i ≤ nJoints r → fk r angles !! i = Some (frame (fk r angles) i).
Proof.
  intros Hi. unfold frame.
  destruct (lookup_lt_is_Some_2 (fk r angles) i) as [M ->]; [|done].
  rewrite length_fk. lia.
Qed.

Lemma fk_frame_0 r angles : frame (fk r angles) 0 = mat4Identity.
Proof. unfold frame. by rewrite fk_upto_all, fk_upto_prefix by lia. Qed.

Lemma fk_frame_S r angles i :
  i < nJoints r →
  frame (fk r angles) (S i) =
    mat4Mul (frame (fk r angles) i)
      (dhTransform (get angles i) (dh_row r i).1.1 (dh_row r i).1.2 (dh_row r i).2).
Proof.
  intros Hi. unfold frame.
  rewrite fk_upto_all.
  rewrite (fk_upto_prefix r angles (nJoints r) (S i)) by lia.
  rewrite (fk_upto_prefix r angles (nJoints r) i) by lia.
  by rewrite fk_upto_last.
Qed.

(** C1: for a model with [n] joints and a length-[n] angle vector, [fk]
    returns a chain of [n+1] poses; pose 0 is the identity and, for every
    [i] from 1 to [n], pose [i] is pose [i-1] composed on the right with
    the DH transform of [angles[i-1]] and DH row [i-1]. *)
Theorem fk_chain (r : Robot) (angles : list float) :
  length angles = nJoints r →
  length (fk r angles) = S (nJoints r)
  ∧ fk r angles !! 0 = Some mat4Identity
  ∧ ∀ i theta d a alpha,
      1 ≤ i ≤ nJoints r →
      angles !! (i - 1) = Some theta →
      dh r !! (i - 1) = Some (d, a, alpha) →
      ∃ prev, fk r angles !! (i - 1) = Some prev
        ∧ fk r angles !! i = Some (mat4Mul prev (dhTransform theta d a alpha)).
Proof.
  intros Hlen. split; [apply length_fk|]. split.
  { rewrite fk_lookup by lia. by rewrite fk_frame_0. }
  intros i theta d a alpha Hi Hth Hdh.
  exists (frame (fk r angles) (i - 1)). split; [apply fk_lookup; lia|].
  rewrite fk_lookup by lia. f_equal.
  replace i with (S (i - 1)) at 1 by lia.
  rewrite fk_frame_S by lia.
  rewrite (get_lookup _ _ _ Hth). unfold dh_row. by rewrite Hdh.
Qed.

End ForwardKinematics.

(** ** The Jacobian *)

Section JacobianFacts.
Context {math : MathImpl}.

Lemma v3_eta_cross a b :
  [get (v3Cross a b) 0; get (v3Cross a b) 1; get (v3Cross a b) 2] = v3Cross a b.
Proof. done. Qed.

Lemma v3_eta_axis M :
  [get (mat4AxisZ M) 0; get (mat4AxisZ M) 1; get (mat4AxisZ M) 2] = mat4AxisZ M.
Proof. done. Qed.

(** Storing a column into a [3 x n] block: the column read back, and the
    other columns untouched. *)
Lemma column_store_eq J n i a b c :
  length J = 3 * n → i < n →
  column (set (set (set J (0 * n + i) a) (1 * n + i) b) (2 * n + i) c) n i = [a; b; c].
Proof.
  intros HJ Hi. unfold column.
  rewrite (get_set_eq _ (2 * n + i)) by (rewrite !length_set; lia).
  rewrite (get_set_ne _ (2 * n + i) (1 * n + i)) by lia.
  rewrite (get_set_eq _ (1 * n + i)) by (rewrite !length_set; lia).
  rewrite (get_set_ne _ (2 * n + i) (0 * n + i)) by lia.
  rewrite (get_set_ne _ (1 * n + i) (0 * n + i)) by lia.
  by rewrite (get_set_eq _ (0 * n + i)) by lia.
Qed.

Lemma column_store_ne J n i j a b c :
  i < n → j < n → i ≠ j →
  column (set (set (set J (0 * n + i) a) (1 * n + i) b) (2 * n + i) c) n j = column J n j.
Proof.
  intros Hi Hj Hij. unfold column.
  by rewrite !get_set_ne by lia.
Qed.

(** The columns of the two blocks, through the vector helpers of the
    source. *)
Lemma jacobian_columns_inv (r : Robot) (angles : list float) :
  let J := jacobian r angles in
  let n := nJoints r in
  let T := fk r angles in
  length (Jp J) = 3 * n ∧ length (Jr J) = 3 * n
  ∧ ∀ i, i < n →
      ∃ Ti Tn, T !! i = Some Ti ∧ T !! n = Some Tn
        ∧ column (Jp J) n i = v3Cross (mat4AxisZ Ti) (v3Sub (mat4Pos Tn) (mat4Pos Ti))
        ∧ column (Jr J) n i = mat4AxisZ Ti.
Proof.
  intros J n T.
  set (cp i := v3Cross (mat4AxisZ (frame T i))
                 (v3Sub (mat4Pos (frame T n)) (mat4Pos (frame T i)))).
  set (P := λ (k : nat) (s : list float * list float),
         length s.1 = 3 * n ∧ length s.2 = 3 * n
         ∧ ∀ j, j < k → column s.1 n j = cp j ∧ column s.2 n j = mat4AxisZ (frame T j)).
  assert (P n (Jp J, Jr J)) as (HJp & HJr & Hcol).
  { subst J. unfold jacobian. fold T n.
    match goal with |- context [for_range 0 n ?body ?s] =>
      pose proof (for_range_invariant P 0 n body s) as Hinv;
      destruct (for_range 0 n body s) as [Jp' Jr'] end.
    apply Hinv; [lia| |].
    - unfold P. cbn [fst snd]. rewrite !length_Float64Array. repeat split; intros; lia.
    - intros i [Jp0 Jr0] Hi (Hl1 & Hl2 & Hprev). unfold P in *. cbn [fst snd] in *.
      rewrite !length_set. split; [done|]. split; [done|]. intros j Hj. split.
      + destruct (decide (j = i)) as [->|Hne].
        * rewrite column_store_eq by (done || lia). apply v3_eta_cross.
        * rewrite column_store_ne by lia. apply Hprev. lia.
      + destruct (decide (j = i)) as [->|Hne].
        * rewrite column_store_eq by (done || lia). apply v3_eta_axis.
        * rewrite column_store_ne by lia. apply Hprev. lia. }
  repeat split; [done..|].
  intros i Hi. exists (frame T i), (frame T n).
  subst T. rewrite !fk_lookup by (fold n; lia).
  repeat split; by apply Hcol.
Qed.

End JacobianFacts.

(** ** Joint-limit clamping *)

Lemma list_eq_get (l1 l2 : list float) :
  length l1 = length l2 → (∀ i, i < length l1 → get l1 i = get l2 i) → l1 = l2.
Proof.
  intros Hlen Hget. apply list_eq. intros i.
  destruct (decide (i < length l1)) as [Hi|Hi].
  - destruct (lookup_lt_is_Some_2 l1 i Hi) as [x Hx].
    destruct (lookup_lt_is_Some_2 l2 i ltac:(lia)) as [y Hy].
    specialize (Hget i Hi). unfold get in Hget. rewrite Hx, Hy in Hget |- *.
    simpl in Hget. by subst.
  - rewrite !lookup_ge_None_2; [done|lia..].
Qed.

Section Clamping.
Variable r : Robot.

Lemma clampAngles_inv (v : list float) :
  length (clampAngles r v) = length v
  ∧ ∀ i, i < length v →
      get (clampAngles r v) i =
        if decide (i < nJoints r)
        then clamp (limit r i).1 (limit r i).2 (get v i) else 0%float.
Proof.
  unfold clampAngles.
  set (P := λ (k : nat) (out : list float),
         length out = length v
         ∧ ∀ i, i < length v →
             get out i = if decide (i < k)
                         then clamp (limit r i).1 (limit r i).2 (get v i) else 0%float).
  apply (for_range_invariant P); [lia| |]; unfold P.
  - split; [apply length_Float64Array|]. intros i Hi.
    rewrite get_Float64Array by done. by case_decide; [lia|].
  - intros k out Hk [Hlen Hout]. rewrite length_set. split; [done|].
    intros i Hi. destruct (decide (i = k)) as [->|Hne].
    + rewrite get_set_eq by lia. by case_decide; [|lia].
    + rewrite get_set_ne by done. rewrite Hout by done.
      repeat case_decide; done || lia.
Qed.

Lemma length_clampAngles v : length (clampAngles r v) = length v.
Proof. apply clampAngles_inv. Qed.

Lemma get_clampAngles v i :
  i < length v →
  get (clampAngles r v) i =
    if decide (i < nJoints r)
    then clamp (limit r i).1 (limit r i).2 (get v i) else 0%float.
Proof. apply clampAngles_inv. Qed.

(** A vector whose components are fixed by the scalar clamps, and of the
    model's joint count, is fixed by [clampAngles]. *)
Lemma clampAngles_fixed v :
  length v = nJoints r →
  (∀ i, i < nJoints r → clamp (limit r i).1 (limit r i).2 (get v i) = get v i) →
  clampAngles r v = v.
Proof.
  intros Hlen Hfix. apply list_eq_get; [apply length_clampAngles|].
  intros i Hi. rewrite length_clampAngles in Hi.
  rewrite get_clampAngles by done. case_decide; [|lia]. by apply Hfix.
Qed.

Lemma clampAngles_twice v : clampAngles r (clampAngles r v) = clampAngles r v.
Proof.
  apply list_eq_get; [by rewrite !length_clampAngles|].
  intros i Hi. rewrite !length_clampAngles in Hi.
  rewrite get_clampAngles by (by rewrite length_clampAngles).
  rewrite get_clampAngles by done.
  case_decide; [|done]. apply FloatOrder.clamp_idemp.
Qed.

(** C9: joint-limit clamping is idempotent, [clamp(clamp(v)) = clamp(v)]
    for every vector [v].  Component [i] of [clamp(v)] is
    [max(min_i, min(max_i, v_i))], which lies in [[min_i, max_i]] when
    [v_i] is a number other than NaN and the limits are ordered. *)
Theorem clampAngles_idempotent (v : list float) :
  clampAngles r (clampAngles r v) = clampAngles r v
  ∧ ∀ i lo hi,
      i < nJoints r → i < length v → limits r !! i = Some (lo, hi) →
      get (clampAngles r v) i = Math_max lo (Math_min hi (get v i))
      ∧ ((lo <=? hi)%float = true → is_nan (get v i) = false →
         (lo <=? get (clampAngles r v) i)%float = true
         ∧ (get (clampAngles r v) i <=? hi)%float = true).
Proof.
  split; [apply clampAngles_twice|].
  intros i lo hi Hi Hv Hlim. rewrite get_clampAngles by done.
  case_decide; [|lia]. unfold limit. rewrite Hlim. cbn [default fst snd].
  split; [done|]. apply FloatOrder.clamp_range.
Qed.

End Clamping.

(** ** Robot construction *)

Lemma PRESETS_lookup key :
  PRESETS !! key =
    if decide (key = "6dof") then Some preset_6dof
    else if decide (key = "ur5") then Some preset_ur5
    else if decide (key = "scara") then Some preset_scara
    else if decide (key = "3link") then Some preset_3link
    else None.
Proof.
  unfold PRESETS. rewrite !lookup_insert, lookup_empty.
  repeat case_decide; congruence.
Qed.

Lemma PRESETS_known key : is_Some (PRESETS !! key) ↔ key ∈ known_presets.
Proof.
  rewrite PRESETS_lookup. unfold known_presets. rewrite !elem_of_cons, elem_of_nil.
  repeat case_decide; subst; split; intros; try (by eauto); try tauto.
Qed.

Lemma construct_well_formed p :
  length (p_limits p) = length (p_dh p) → well_formed (construct p).
Proof. intros Hl. unfold well_formed. simpl. by rewrite length_fmap, length_Float64Array. Qed.

(** Every robot the constructor returns is built from one of the four
    presets: it is well formed, none of its limits is a zero, and its
    initial angles lie within the limits. *)
Lemma Robot_new_inr key r :
  Robot_new key = inr r →
  key ∈ known_presets
  ∧ well_formed r ∧ nonzero_limits r = true ∧ within_limits r (angles r) = true.
Proof.
  unfold Robot_new, PRESETS_get. intros Hr.
  assert (is_Some (PRESETS !! key)) as Hs.
  { destruct (PRESETS !! key); [done|]. by case_bool_decide. }
  split; [by apply PRESETS_known|].
  revert Hr. rewrite PRESETS_lookup.
  repeat case_decide; try (by case_bool_decide); intros [= <-];
    (split; [by apply construct_well_formed|]);
    split; by vm_compute.
Qed.

(** C7: the constructor returns a robot model when the key names one of the
    presets and raises otherwise; the other operations of the model are
    total functions, so this is the only failure a caller can see. *)
Theorem Robot_new_known_or_error (presetKey : string) :
  (presetKey ∈ known_presets →
     ∃ p, PRESETS !! presetKey = Some p ∧ Robot_new presetKey = inr (construct p)
          ∧ well_formed (construct p))
  ∧ (presetKey ∉ known_presets → ∃ e, Robot_new presetKey = inl e).
Proof.
  split.
  - intros [p Hp]%PRESETS_known. exists p. split; [done|].
    unfold Robot_new, PRESETS_get. rewrite Hp. split; [done|].
    apply construct_well_formed. revert Hp. rewrite PRESETS_lookup.
    repeat case_decide; by intros [= <-].
  - intros Hk. unfold Robot_new, PRESETS_get.
    destruct (PRESETS !! presetKey) as [p|] eqn:Hp.
    + destruct Hk. apply PRESETS_known. by rewrite Hp.
    + case_bool_decide; eauto.
Qed.

(** ** Inverse kinematics *)

Lemma or_defaultZ_positive (a : option Z) (dflt : Z) :
  (∀ m, a = Some m → (0 < m)%Z) → or_defaultZ a dflt = default dflt a.
Proof.
  intros Hpos. destruct a as [m|]; [|done]. simpl.
  specialize (Hpos m eq_refl). destruct (Z.eqb_spec m 0); [lia|done].
Qed.

Lemma or_default_positive (a : option float) (dflt : float) :
  (∀ t, a = Some t → (0 <? t)%float = true) → or_default a dflt = default dflt a.
Proof.
  intros Hpos. destruct a as [t|]; [|done]. simpl.
  by rewrite (FloatOrder.truthy_positive t (Hpos t eq_refl)).
Qed.

(** Angles within the limits are a fixed point of [clampAngles]. *)
Lemma within_limits_fixed (r : Robot) (a : list float) :
  well_formed r → nonzero_limits r = true → within_limits r a = true →
  clampAngles r a = a.
Proof.
  intros (Hn & Hl & _) Hnz [Hlen Hin]%andb_true_iff.
  apply bool_decide_eq_true in Hlen.
  apply clampAngles_fixed; [done|]. intros i Hi.
  destruct (lookup_lt_is_Some_2 (limits r) i ltac:(lia)) as [[lo hi] Hlim].
  destruct (lookup_lt_is_Some_2 a i ltac:(lia)) as [x Hx].
  unfold limit. rewrite Hlim, (get_lookup _ _ _ Hx). simpl.
  unfold nonzero_limits in Hnz. rewrite forallb_forall in Hin, Hnz.
  assert (In (lo, hi) (limits r)) as Hzl.
  { apply list_elem_of_In. by eapply list_elem_of_lookup_2. }
  apply Hnz, andb_true_iff in Hzl as [Hzl Hzh].
  assert (In ((lo, hi), x) (zip (limits r) a)) as Hlo.
  { apply list_elem_of_In. apply (list_elem_of_lookup_2 _ i).
    rewrite lookup_zip_with, Hlim. simpl. by rewrite Hx. }
  apply Hin, andb_true_iff in Hlo as [Hlo Hhi].
  apply FloatOrder.clamp_within; [done..| |]; by apply negb_true_iff.
Qed.

Section InverseKinematics.
Context {math : MathImpl}.
Variables (r : Robot) (target : list float).

(** The three [||] of lines 176-178 keep a positive value and fall back to
    the default for a missing property. *)
Lemma solveIK_options_resolved (start : option (list float)) (opts : Options) :
  (∀ m, maxIter opts = Some m → (0 < m)%Z) →
  (∀ t, tol opts = Some t → (0 <? t)%float = true) →
  (∀ l, lambda opts = Some l → (0 <? l)%float = true) →
  solveIK r target start opts =
    solveIK_with r target (default (angles r) start)
      (default 200%Z (maxIter opts))
      (default 0.001%float (tol opts))
      (default 0.5%float (lambda opts)).
Proof.
  intros Hm Ht Hl. unfold solveIK, ik_maxIter, ik_tol, ik_lambda.
  by rewrite or_defaultZ_positive, !or_default_positive.
Qed.

(** C6: when the end effector at the start angles is already within the
    tolerance of the target, [solveIK] returns [converged = true] and
    [iterations = 0]; the angles returned are the start angles passed
    through the limit clamp only, no joint update is made. *)
Theorem solveIK_immediate (start : option (list float)) (opts : Options) :
  let a := default (angles r) start in
  (0 < ik_maxIter opts)%Z →
  (distance r target a <? ik_tol opts)%float = true →
  solveIK r target start opts =
    mkIKResult (clampAngles r a) true (distance r target a) 0.
Proof.
  intros a HN Hd. unfold solveIK, solveIK_with. fold a.
  destruct (Z.to_nat (ik_maxIter opts)) as [|k] eqn:Hk; [lia|].
  simpl. fold (distance r target a). by rewrite Hd.
Qed.

Lemma ik_update_clamped lambda a :
  clampAngles r (ik_update r target lambda a) = ik_update r target lambda a.
Proof. unfold ik_update. apply clampAngles_twice. Qed.

Lemma ik_iterate_S lambda a k :
  ik_iterate r target lambda a (S k) =
    ik_iterate r target lambda (ik_update r target lambda a) k.
Proof. unfold ik_iterate. by rewrite Nat.iter_succ_r. Qed.



(** A converged loop reports the error of the angles it returns, provided
    it started from a fixed point of the clamp. *)
Lemma ik_loop_converged N tol lambda k iter a :
  clampAngles r a = a →
  let res := ik_loop r target N tol lambda k iter a in
  converged res = true →
  error res = distance r target (ik_angles res) ∧ (error res <? tol)%float = true.
Proof.
  revert iter a. induction k as [|k IH]; intros iter a Hfix; [done|].
  simpl. fold (distance r target a).
  destruct (distance r target a <? tol)%float eqn:Hd.
  - simpl. intros _. by rewrite Hfix.
  - apply IH, ik_update_clamped.
Qed.

End InverseKinematics.

Section Reported.
Context {math : MathImpl}.

(** On convergence the angles returned are those the error was computed
    from. *)
Lemma solveIK_converged_reported (presetKey : string) (r : Robot)
    (target : list float) (start : option (list float)) (opts : Options) :
  Robot_new presetKey = inr r →
  within_limits r (default (angles r) start) = true →
  let res := solveIK r target start opts in
  converged res = true →
  error res = v3Len (v3Sub target (mat4Pos (frame (fk r (ik_angles res)) (nJoints r))))
  ∧ (error res <? ik_tol opts)%float = true.
Proof.
  intros (_ & Hwf & Hnz & _)%Robot_new_inr Hin res Hc.
  pose proof (within_limits_fixed r _ Hwf Hnz Hin) as Hfix.
  exact (ik_loop_converged r target _ _ _ _ _ _ Hfix Hc).
Qed.

End Reported.

(** ** The linear solver *)

Section SolverFacts.
Implicit Types (aug : matrix) (x : list float).

Lemma length_put aug r c v : length (put aug r c v) = length aug.
Proof. apply length_insert. Qed.

Lemma row_put_ne aug r r' c v : r ≠ r' → row (put aug r c v) r' = row aug r'.
Proof. intros Hne. unfold row, put. by rewrite list_lookup_insert_ne. Qed.

Lemma length_swap_rows aug col mx : length (swap_rows aug col mx) = length aug.
Proof. unfold swap_rows. by rewrite !length_insert. Qed.

(** The rows of the matrix after the exchange. *)
Lemma row_swap_rows aug col mx r :
  col < length aug → mx < length aug →
  row (swap_rows aug col mx) r =
    if decide (r = mx) then row aug col
    else if decide (r = col) then row aug mx else row aug r.
Proof.
  intros Hcol Hmx. unfold swap_rows, row at 1.
  destruct (decide (r = mx)) as [->|Hne].
  { by rewrite list_lookup_insert_eq by (by rewrite length_insert). }
  rewrite list_lookup_insert_ne by done.
  destruct (decide (r = col)) as [->|Hne'].
  { by rewrite list_lookup_insert_eq. }
  by rewrite list_lookup_insert_ne.
Qed.

Lemma at_swap_rows aug col mx r c :
  col < length aug → mx < length aug →
  at_ (swap_rows aug col mx) r c =
    at_ aug (if decide (r = mx) then col else if decide (r = col) then mx else r) c.
Proof.
  intros Hcol Hmx. unfold at_. rewrite row_swap_rows by done.
  by repeat case_decide.
Qed.

(** *** The pivot search *)

Lemma pivot_search_spec aug n col :
  let '(mx, mv) := pivot_search aug n col in
  col ≤ mx ∧ (mx = col ∨ mx < n)
  ∧ mv = Math_abs (at_ aug mx col)
  ∧ ∀ r, col ≤ r < n → (mv <? Math_abs (at_ aug r col))%float = false.
Proof.
  unfold pivot_search.
  set (P := λ (k : nat) (s : nat * float),
         col ≤ s.1 ∧ s.1 < k
         ∧ s.2 = Math_abs (at_ aug s.1 col)
         ∧ ∀ r, col ≤ r < k → (s.2 <? Math_abs (at_ aug r col))%float = false).
  destruct (decide (col + 1 ≤ n)) as [Hle|Hgt].
  - match goal with |- context [for_range ?lo n ?body ?s] =>
      pose proof (for_range_invariant P lo n body s Hle) as Hinv;
      destruct (for_range lo n body s) as [mx mv] end.
    destruct Hinv as (H1 & H2 & H3 & H4).
    + unfold P. cbn [fst snd]. repeat split; [lia..|].
      intros r Hr. replace r with col by lia. apply FloatOrder.ltb_irrefl.
    + intros k [mx0 mv0] Hk (H1 & H2 & H3 & H4). unfold P in *. cbn [fst snd] in *.
      destruct (mv0 <? Math_abs (at_ aug k col))%float eqn:Hlt; cbn [fst snd].
      * repeat split; [lia..|]. intros r Hr.
        destruct (decide (r = k)) as [->|Hne]; [apply FloatOrder.ltb_irrefl|].
        apply not_true_is_false. intros Hlt'.
        pose proof (FloatOrder.ltb_trans _ _ _ Hlt Hlt') as Hc.
        rewrite H4 in Hc by lia. done.
      * repeat split; [lia..|done|]. intros r Hr.
        destruct (decide (r = k)) as [->|Hne]; [done|]. apply H4. lia.
    + cbn [fst snd] in *. repeat split; [done|lia|done..].
  - rewrite for_range_empty by lia. repeat split; [lia|by left|].
    intros r Hr. lia.
Qed.

(** Partial pivoting: after the exchange no entry of the active column
    exceeds the pivot in magnitude. *)
Lemma pivoted_largest aug n col r :
  length aug = n → col ≤ r < n →
  (Math_abs (at_ (pivoted aug n col) col col)
     <? Math_abs (at_ (pivoted aug n col) r col))%float = false.
Proof.
  intros Hlen Hr. unfold pivoted.
  pose proof (pivot_search_spec aug n col) as Hp.
  destruct (pivot_search aug n col) as [mx mv]. cbn [fst].
  destruct Hp as (H1 & H2 & -> & H4).
  rewrite !at_swap_rows by lia.
  repeat case_decide; subst; try lia; apply H4; lia.
Qed.

(** *** Elimination leaves the rows at and above the pivot alone *)

Lemma eliminate_inv aug n col p :
  length (eliminate aug n col p) = length aug
  ∧ ∀ r, r ≤ col → row (eliminate aug n col p) r = row aug r.
Proof.
  unfold eliminate.
  set (P := λ (k : nat) (a : matrix),
         length a = length aug ∧ ∀ r, r < k → r ≤ col → row a r = row aug r).
  destruct (decide (col + 1 ≤ n)) as [Hle|Hgt]; [|by rewrite for_range_empty by lia].
  match goal with |- context [for_range ?lo n ?body ?s] =>
    pose proof (for_range_invariant P lo n body s Hle) as Hinv end.
  destruct Hinv as [H1 H2]; [done| |].
  - intros k a Hk [Hl Hr].
    set (Q := λ (j : nat) (a' : matrix),
           length a' = length aug ∧ ∀ r, r ≤ col → row a' r = row aug r).
    match goal with |- context [for_range ?lo ?hi ?body ?s] =>
      pose proof (for_range_invariant Q lo hi body s ltac:(lia)) as Hinv end.
    destruct Hinv as [H1 H2].
    + split; [done|]. intros r Hrc. apply Hr; lia.
    + intros j a' Hj [Hl' Hr']. split; [by rewrite length_put|].
      intros r Hrc. rewrite row_put_ne by lia. by apply Hr'.
    + split; [done|]. intros r _ Hrc. by apply H2.
  - split; [done|]. intros r Hrc. apply H2; lia.
Qed.

Lemma length_column_step n col aug : length (column_step n col aug) = length aug.
Proof.
  unfold column_step. case_match.
  - apply length_swap_rows.
  - rewrite (proj1 (eliminate_inv _ _ _ _)). apply length_swap_rows.
Qed.

(** Round [col] of the column loop touches no row above [col]. *)
Lemma row_column_step n col aug r :
  length aug = n → col < n → r < col →
  row (column_step n col aug) r = row aug r.
Proof.
  intros Hlen Hcol Hr.
  assert (row (pivoted aug n col) r = row aug r) as Hpiv.
  { unfold pivoted. pose proof (pivot_search_spec aug n col) as Hp.
    destruct (pivot_search aug n col) as [mx mv]. cbn [fst].
    destruct Hp as (H1 & H2 & _).
    rewrite row_swap_rows by lia. repeat case_decide; done || lia. }
  unfold column_step. case_match; [done|].
  by rewrite (proj2 (eliminate_inv _ _ _ _)) by lia.
Qed.

Lemma forward_S aug n k : forward aug n (S k) = column_step n k (forward aug n k).
Proof. unfold forward. by rewrite for_range_snoc by lia. Qed.

Lemma length_forward aug n k : length (forward aug n k) = length aug.
Proof.
  induction k as [|k IH]; [done|].
  by rewrite forward_S, length_column_step.
Qed.

(** Row [col] is final once round [col] is over. *)
Lemma row_forward_stable aug n col k :
  length aug = n → col < k ≤ n →
  row (forward aug n k) col = row (forward aug n (S col)) col.
Proof.
  intros Hlen. induction k as [|k IH]; intros Hk; [lia|].
  destruct (decide (k = col)) as [->|Hne]; [done|].
  rewrite forward_S, row_column_step; [apply IH; lia| |lia..].
  by rewrite length_forward.
Qed.

Lemma length_build A b n : length (build A b n) = n.
Proof.
  unfold build.
  by apply (for_range_invariant (λ k (a : matrix), length a = k));
    [lia|done|intros i a _ <-; rewrite length_app; simpl; lia].
Qed.

(** *** Back-substitution *)

Lemma numerator_inv aug n i x :
  length (numerator aug n i x) = length x
  ∧ ∀ j, j ≠ i → get (numerator aug n i x) j = get x j.
Proof.
  unfold numerator.
  set (P := λ (k : nat) (y : list float),
         length y = length x ∧ ∀ j, j ≠ i → get y j = get x j).
  destruct (decide (i + 1 ≤ n)) as [Hle|Hgt].
  - apply (for_range_invariant P); [done| |]; unfold P.
    + split; [apply length_set|]. intros j Hj. by rewrite get_set_ne.
    + intros k y _ [Hl Hy]. split; [by rewrite length_set|].
      intros j Hj. rewrite get_set_ne by done. by apply Hy.
  - rewrite for_range_empty by lia.
    split; [apply length_set|]. intros j Hj. by rewrite get_set_ne.
Qed.

(** Round [i] writes component [i] only, and writes [0] there when the
    diagonal entry is not above the threshold. *)
Lemma back_step_inv aug n i x :
  length (back_step aug n i x) = length x
  ∧ (∀ j, j ≠ i → get (back_step aug n i x) j = get x j)
  ∧ (i < length x → (eps <? Math_abs (at_ aug i i))%float = false →
     get (back_step aug n i x) i = 0%float).
Proof.
  unfold back_step. destruct (numerator_inv aug n i x) as [Hl Hne].
  case_match; rewrite length_set; (split; [done|]); split.
  - intros j Hj. rewrite get_set_ne by done. by apply Hne.
  - done.
  - intros j Hj. rewrite get_set_ne by done. by apply Hne.
  - intros Hi _. apply get_set_eq. by rewrite Hl.
Qed.

Lemma back_rounds aug n hi x :
  length x = n → hi ≤ n →
  length (for_down hi (back_step aug n) x) = n
  ∧ (∀ i, i < hi → (eps <? Math_abs (at_ aug i i))%float = false →
       get (for_down hi (back_step aug n) x) i = 0%float)
  ∧ (∀ i, hi ≤ i → get (for_down hi (back_step aug n) x) i = get x i).
Proof.
  revert x. induction hi as [|hi IH]; intros x Hlen Hhi.
  { rewrite for_down_0. split; [done|]. split; [intros; lia|done]. }
  rewrite for_down_S.
  destruct (back_step_inv aug n hi x) as (Hl & Hne & Hz).
  destruct (IH (back_step aug n hi x)) as (Hl' & Hz' & Hge'); [congruence|lia|].
  split; [done|]. split.
  - intros i Hi Hsmall. destruct (decide (i = hi)) as [->|Hne'].
    + rewrite Hge' by lia. apply Hz; [lia|done].
    + apply Hz'; [lia|done].
  - intros i Hi. rewrite Hge' by lia. apply Hne. lia.
Qed.

Lemma length_solveLinear A b n : length (solveLinear A b n) = n.
Proof.
  unfold solveLinear, back_substitute.
  apply (back_rounds _ n n); [apply length_Float64Array|done].
Qed.

(** The zero fallback: a component whose diagonal entry after elimination
    is not above the threshold in magnitude is [0]. *)
Lemma solveLinear_zero_fallback A b n i :
  i < n →
  (eps <? Math_abs (at_ (forward (build A b n) n n) i i))%float = false →
  get (solveLinear A b n) i = 0%float.
Proof.
  intros Hi Hsmall. unfold solveLinear, back_substitute.
  by apply (back_rounds _ n n); [apply length_Float64Array|..].
Qed.

(** C4, as the code has it: [solveLinear] is total and returns a
    length-[n] vector.  In the round of each column it exchanges rows so
    that no entry of the column at or below the diagonal exceeds the pivot
    in magnitude; when the magnitude of that pivot is below [1e-12] it
    skips the elimination of the column and the solution component of the
    column is [0]; more generally every component whose diagonal entry
    after elimination is not above [1e-12] in magnitude is [0], never a
    quotient by it. *)
Theorem solveLinear_policy (A b : list float) (n : nat) :
  let x := solveLinear A b n in
  let U := forward (build A b n) n n in
  length x = n
  ∧ (∀ col, col < n →
       let piv := pivoted (forward (build A b n) n col) n col in
       let p := at_ piv col col in
       (∀ r, col ≤ r < n →
          (Math_abs p <? Math_abs (at_ piv r col))%float = false)
       ∧ ((Math_abs p <? eps)%float = true →
          forward (build A b n) n (S col) = piv ∧ get x col = 0%float))
  ∧ (∀ i, i < n → (eps <? Math_abs (at_ U i i))%float = false → get x i = 0%float).
Proof.
  intros x U. split; [apply length_solveLinear|]. split.
  - intros col Hcol piv p. split.
    + intros r Hr. apply pivoted_largest; [|done].
      by rewrite length_forward, length_build.
    + intros Hsmall.
      assert (forward (build A b n) n (S col) = piv) as Hskip.
      { rewrite forward_S. unfold column_step. fold piv p. by rewrite Hsmall. }
      split; [done|]. apply solveLinear_zero_fallback; [done|].
      unfold at_. rewrite row_forward_stable by (apply length_build || lia).
      rewrite Hskip. fold (at_ piv col col). fold p.
      by apply FloatOrder.ltb_asym.
  - intros i Hi. by apply solveLinear_zero_fallback.
Qed.

End SolverFacts.

(* ================================================================= *)
(** * The statements on concrete inputs *)

#[local] Open Scope float_scope.

Lemma fk_chain_witness :
  length [0; 0; 0] = nJoints robot_3link
  ∧ (1 ≤ 2 ≤ nJoints robot_3link)%nat
  ∧ [0; 0; 0] !! 1%nat = Some 0
  ∧ dh robot_3link !! 1%nat = Some (0, 0.6, 0)
  ∧ length (fk (math:=Math_taylor) robot_3link [0; 0; 0]) = 4%nat
  ∧ fk (math:=Math_taylor) robot_3link [0; 0; 0] !! 0%nat = Some mat4Identity
  ∧ (∃ prev, fk (math:=Math_taylor) robot_3link [0; 0; 0] !! 1%nat = Some prev
      ∧ fk (math:=Math_taylor) robot_3link [0; 0; 0] !! 2%nat
        = Some (mat4Mul prev (dhTransform (math:=Math_taylor) 0 0 0.6 0)))
  ∧ fk (math:=Math_taylor) robot_3link [0; 0; 0]
    = [[1; 0; 0; 0; 0; 1; 0; 0; 0; 0; 1; 0; 0; 0; 0; 1];
       [1; 0; 0; 0.80000000000000004; 0; 1; 0; 0; 0; 0; 1; 0; 0; 0; 0; 1];
       [1; 0; 0; 1.3999999999999999; 0; 1; 0; 0; 0; 0; 1; 0; 0; 0; 0; 1];
       [1; 0; 0; 1.7999999999999998; 0; 1; 0; 0; 0; 0; 1; 0; 0; 0; 0; 1]]
  ∧ fk (math:=Math_taylor) robot_3link inner_angles
    = [[1; 0; 0; 0; 0; 1; 0; 0; 0; 0; 1; 0; 0; 0; 0; 1];
       [0.54030230586813965; -0.8414709848078965; 0; 0.43224184469451177;
        0.8414709848078965; 0.54030230586813965; 0; 0.67317678784631729;
        0; 0; 1; 0; 0; 0; 0; 1];
       [0.99999999999999989; 0; 0; 1.0322418446945116;
        0; 0.99999999999999989; 0; 0.67317678784631729;
        0; 0; 1; 0; 0; 0; 0; 1];
       [0.87758256189037265; -0.47942553860420295; 0; 1.3832748694506607;
        0.47942553860420295; 0.87758256189037265; 0; 0.86494700328799845;
        0; 0; 1; 0; 0; 0; 0; 1]].
Proof.
  destruct (fk_chain (math:=Math_taylor) robot_3link [0; 0; 0] eq_refl)
    as (Hlen & H0 & Hstep).
  split; [reflexivity|]. split; [simpl; lia|].
  split; [reflexivity|]. split; [reflexivity|].
  split; [exact Hlen|]. split; [exact H0|].
  split; [|split; vm_compute; reflexivity].
  apply (Hstep 2%nat 0 0 0.6 0); [simpl; lia|reflexivity|reflexivity].
Defined.

Lemma solveLinear_policy_witness :
  (1 < 2)%nat
  ∧ (Math_abs (at_ (pivoted (forward (build dependent_A dependent_b 2) 2 1) 2 1) 1 1)
       <? eps) = true
  ∧ forward (build dependent_A dependent_b 2) 2 2
    = pivoted (forward (build dependent_A dependent_b 2) 2 1) 2 1
  ∧ get (solveLinear dependent_A dependent_b 2) 1 = 0
  ∧ length (solveLinear dependent_A dependent_b 2) = 2%nat
  ∧ solveLinear dependent_A dependent_b 2 = [3; 0].
Proof.
  destruct (solveLinear_policy dependent_A dependent_b 2) as (Hlen & Hcol & _).
  assert (1 < 2)%nat as H12 by lia.
  destruct (Hcol 1%nat H12) as [_ Hskip].
  assert ((Math_abs (at_ (pivoted (forward (build dependent_A dependent_b 2) 2 1) 2 1) 1 1)
             <? eps) = true) as Hsmall by (vm_compute; reflexivity).
  destruct (Hskip Hsmall) as [Hfw Hx].
  split; [exact H12|]. split; [exact Hsmall|]. split; [exact Hfw|].
  split; [exact Hx|]. split; [exact Hlen|vm_compute; reflexivity].
Defined.

(** The system [singular_A x = singular_b] is singular with finite
    coefficients and right-hand side, and [solveLinear] returns
    [[NaN, Infinity, 0]] for it: the quotient [1e308 / 1e-11] overflows and
    [0 * Infinity] is NaN. *)
Lemma solveLinear_singular_not_finite :
  all_finite singular_A = true ∧ all_finite singular_b = true
  ∧ (get singular_A 6 = 0 ∧ get singular_A 7 = 0 ∧ get singular_A 8 = 0)
  ∧ solveLinear singular_A singular_b 3 = [nan; infinity; 0]
  ∧ ¬ (all_finite (solveLinear singular_A singular_b 3) = true).
Proof. vm_compute. repeat split. discriminate. Qed.


Lemma solveIK_immediate_witness :
  (0 < ik_maxIter no_options)%Z
  ∧ (distance (math:=Math_taylor) robot_3link home_target (angles robot_3link)
       <? ik_tol no_options) = true
  ∧ solveIK (math:=Math_taylor) robot_3link home_target None no_options
    = mkIKResult (clampAngles robot_3link (angles robot_3link)) true
        (distance (math:=Math_taylor) robot_3link home_target (angles robot_3link)) 0
  ∧ solveIK (math:=Math_taylor) robot_3link home_target None no_options
    = mkIKResult [0; 0; 0] true 0 0.
Proof.
  assert (0 < ik_maxIter no_options)%Z as HN by (vm_compute; reflexivity).
  assert ((distance (math:=Math_taylor) robot_3link home_target (angles robot_3link)
             <? ik_tol no_options) = true) as Hd by (vm_compute; reflexivity).
  split; [exact HN|]. split; [exact Hd|].
  split; [|vm_compute; reflexivity].
  exact (solveIK_immediate (math:=Math_taylor) robot_3link home_target None
           no_options HN Hd).
Defined.

Lemma Robot_new_known_or_error_witness :
  ("3link" ∈ known_presets
   ∧ ∃ p, PRESETS !! "3link" = Some p ∧ Robot_new "3link" = inr (construct p)
          ∧ well_formed (construct p))
  ∧ (("gantry" ∉ known_presets) ∧ ∃ e, Robot_new "gantry" = inl e)
  ∧ (("toString" ∉ known_presets) ∧ ∃ e, Robot_new "toString" = inl e)
  ∧ Robot_new "3link"
    = inr (mkRobot "3-Link Planar"
             [(0, 0.80000000000000004, 0); (0, 0.59999999999999998, 0);
              (0, 0.40000000000000002, 0)]
             3
             [(-3.1415926535897931, 3.1415926535897931);
              (-2.6179938779914944, 2.6179938779914944);
              (-2.6179938779914944, 2.6179938779914944)]
             [0; 0; 0]).
Proof.
  assert ("3link" ∈ known_presets) as H1.
  { apply (bool_decide_unpack _). vm_compute. exact I. }
  assert ("gantry" ∉ known_presets) as H2.
  { apply (bool_decide_unpack _). vm_compute. exact I. }
  assert ("toString" ∉ known_presets) as H3.
  { apply (bool_decide_unpack _). vm_compute. exact I. }
  split; [split; [exact H1|]|split; [split; [exact H2|]|split; [split; [exact H3|]|]]].
  - exact (proj1 (Robot_new_known_or_error "3link") H1).
  - exact (proj2 (Robot_new_known_or_error "gantry") H2).
  - exact (proj2 (Robot_new_known_or_error "toString") H3).
  - vm_compute. reflexivity.
Defined.

Lemma clampAngles_idempotent_witness :
  (0 < nJoints robot_3link)%nat ∧ (0 < length wide_angles)%nat
  ∧ limits robot_3link !! 0%nat = Some (-180 * RAD, 180 * RAD)
  ∧ (-180 * RAD <=? 180 * RAD) = true
  ∧ is_nan (get wide_angles 0) = false
  ∧ clampAngles robot_3link (clampAngles robot_3link wide_angles)
    = clampAngles robot_3link wide_angles
  ∧ get (clampAngles robot_3link wide_angles) 0
    = Math_max (-180 * RAD) (Math_min (180 * RAD) (get wide_angles 0))
  ∧ (-180 * RAD <=? get (clampAngles robot_3link wide_angles) 0) = true
  ∧ (get (clampAngles robot_3link wide_angles) 0 <=? 180 * RAD) = true
  ∧ clampAngles robot_3link wide_angles
    = [3.1415926535897931; -2.6179938779914944; 1].
Proof.
  destruct (clampAngles_idempotent robot_3link wide_angles) as [Hidem Hcomp].
  assert (0 < nJoints robot_3link)%nat as Hn by (simpl; lia).
  assert (0 < length wide_angles)%nat as Hv by (simpl; lia).
  assert (limits robot_3link !! 0%nat = Some (-180 * RAD, 180 * RAD)) as Hlim
    by reflexivity.
  assert ((-180 * RAD <=? 180 * RAD) = true) as Hord by (vm_compute; reflexivity).
  assert (is_nan (get wide_angles 0) = false) as Hnan by (vm_compute; reflexivity).
  destruct (Hcomp 0%nat _ _ Hn Hv Hlim) as [Hval Hrange].
  destruct (Hrange Hord Hnan) as [Hlo Hhi].
  repeat (split; [assumption|]). vm_compute. reflexivity.
Defined.

(* ================================================================= *)
(** * Further properties of the code *)

#[local] Close Scope float_scope.

(** ** Arithmetic of binary64 numbers *)

Module FloatArith.
#[local] Open Scope float_scope.

Lemma SFmul_comm prec emax a b : SFmul prec emax a b = SFmul prec emax b a.
Proof.
  destruct a as [sa|sa| |sa ma ea], b as [sb|sb| |sb mb eb]; simpl; try done;
    try (by destruct sa, sb).
  by rewrite (xorb_comm sa sb), (Pos.mul_comm ma mb), (Z.add_comm ea eb).
Qed.

(** Multiplication of binary64 numbers is commutative. *)
Lemma mul_comm x y : x * y = y * x.
Proof. apply Prim2SF_inj. rewrite !mul_spec. apply SFmul_comm. Qed.

Lemma SFadd_comm prec emax a b : SFadd prec emax a b = SFadd prec emax b a.
Proof.
  destruct a as [sa|sa| |sa ma ea], b as [sb|sb| |sb mb eb]; simpl; try done;
    try (by destruct sa, sb).
  by rewrite (Z.min_comm ea eb), Z.add_comm.
Qed.

(** Addition of binary64 numbers is commutative. *)
Lemma add_comm x y : x + y = y + x.
Proof. apply Prim2SF_inj. rewrite !add_spec. apply SFadd_comm. Qed.

(** A finite number is a zero or has a mantissa. *)
Lemma is_finite_spec x :
  is_finite x = true ↔
  (∃ s, Prim2SF x = S754_zero s) ∨ (∃ s m e, Prim2SF x = S754_finite s m e).
Proof.
  unfold is_finite, is_infinity.
  destruct (is_nan x) eqn:Hn.
  { apply FloatOrder.is_nan_spec in Hn. rewrite Hn. simpl.
    split; [done|]. intros [[? ?]|(? & ? & ? & ?)]; done. }
  apply FloatOrder.is_nan_false in Hn. simpl.
  destruct (abs x =? infinity) eqn:Hi; simpl.
  - apply FloatOrder.eqb_Eq in Hi. rewrite abs_spec in Hi.
    change (Prim2SF infinity) with (S754_infinity false) in Hi.
    split; [done|].
    intros [[s Hx]|(s & m & e & Hx)]; rewrite Hx in Hi; simpl in Hi; done.
  - apply not_true_iff_false in Hi. rewrite FloatOrder.eqb_Eq, abs_spec in Hi.
    change (Prim2SF infinity) with (S754_infinity false) in Hi.
    split; [intros _|done].
    destruct (Prim2SF x) as [s|s| |s m e]; simpl in *; eauto; done.
Qed.

(** [0 * x] is a zero when [x] is finite. *)
Lemma zero_mul_finite x : is_finite x = true → is_zero (0 * x) = true.
Proof.
  intros Hx. apply FloatOrder.is_zero_spec. rewrite mul_spec.
  change (Prim2SF 0) with (S754_zero false).
  apply is_finite_spec in Hx as [[s ->]|(s & m & e & ->)]; simpl; eauto.
Qed.

(** [+0] absorbs a zero of either sign. *)
Lemma zero_add_zero z : is_zero z = true → 0 + z = 0.
Proof.
  intros [s Hz]%FloatOrder.is_zero_spec. apply Prim2SF_inj. rewrite add_spec, Hz.
  change (Prim2SF 0) with (S754_zero false). by destruct s.
Qed.

(** A finite number minus itself is [+0]. *)
Lemma sub_diag x : is_finite x = true → x - x = 0.
Proof.
  intros Hx. apply Prim2SF_inj. rewrite sub_spec.
  change (Prim2SF 0) with (S754_zero false).
  apply FloatArith.is_finite_spec in Hx as [[s ->]|(s & m & e & ->)].
  - by destruct s.
  - unfold SF64sub, SFsub. rewrite Z.sub_diag. reflexivity.
Qed.

End FloatArith.

(** ** Vectors and matrices *)

Lemma for_range_ext {S : Type} lo hi (body body' : nat → S → S) s :
  (∀ i s, lo ≤ i < hi → body i s = body' i s) →
  for_range lo hi body s = for_range lo hi body' s.
Proof.
  intros Hext. destruct (decide (lo ≤ hi)) as [Hle|Hgt].
  - apply (for_range_invariant (λ k t, t = for_range lo k body' s)); [done|by rewrite for_range_empty|].
    intros i t Hi ->. rewrite for_range_snoc by lia. by apply Hext.
  - by rewrite !for_range_empty by lia.
Qed.

Section Vectors.

(** X1: [v3Dot] is symmetric, exactly: the products are commutative in
    binary64 and are summed in the same order. *)
Theorem v3Dot_comm (a b : list float) : v3Dot a b = v3Dot b a.
Proof.
  unfold v3Dot.
  by rewrite (FloatArith.mul_comm (get a 0)), (FloatArith.mul_comm (get a 1)),
    (FloatArith.mul_comm (get a 2)).
Qed.

(** X2: [v3Add] is commutative, exactly. *)
Theorem v3Add_comm (a b : list float) : v3Add a b = v3Add b a.
Proof.
  unfold v3Add.
  by rewrite (FloatArith.add_comm (get a 0)), (FloatArith.add_comm (get a 1)),
    (FloatArith.add_comm (get a 2)).
Qed.

End Vectors.

Section Matrices.
#[local] Open Scope float_scope.

Lemma mat4Mul_entry A B r c :
  (r < 4)%nat → (c < 4)%nat →
  get (mat4Mul A B) (r * 4 + c) =
    0 + get A (r * 4 + 0) * get B (0 * 4 + c)
      + get A (r * 4 + 1) * get B (1 * 4 + c)
      + get A (r * 4 + 2) * get B (2 * 4 + c)
      + get A (r * 4 + 3) * get B (3 * 4 + c).
Proof.
  intros Hr Hc.
  destruct r as [|[|[|[|r]]]]; try lia;
    destruct c as [|[|[|[|c]]]]; try lia; reflexivity.
Qed.

Lemma length_mat4Mul A B : length (mat4Mul A B) = 16%nat.
Proof. reflexivity. Qed.

Lemma bottom_entry z1 z2 z3 w :
  is_finite z1 = true → is_finite z2 = true → is_finite z3 = true →
  0 + 0 * z1 + 0 * z2 + 0 * z3 + 1 * w = 0 + 1 * w.
Proof.
  intros H1 H2 H3.
  rewrite (FloatArith.zero_add_zero _ (FloatArith.zero_mul_finite _ H1)).
  rewrite (FloatArith.zero_add_zero _ (FloatArith.zero_mul_finite _ H2)).
  by rewrite (FloatArith.zero_add_zero _ (FloatArith.zero_mul_finite _ H3)).
Qed.

Lemma mat4Mul_bottom (A B : list float) :
  mat4Bottom A = [0; 0; 0; 1] → mat4Bottom B = [0; 0; 0; 1] →
  (∀ i, (i < 12)%nat → is_finite (get B i) = true) →
  mat4Bottom (mat4Mul A B) = [0; 0; 0; 1].
Proof.
  intros [= A12 A13 A14 A15] [= B12 B13 B14 B15] Hfin. unfold mat4Bottom.
  pose proof (mat4Mul_entry A B 3 0 ltac:(lia) ltac:(lia)) as E0.
  pose proof (mat4Mul_entry A B 3 1 ltac:(lia) ltac:(lia)) as E1.
  pose proof (mat4Mul_entry A B 3 2 ltac:(lia) ltac:(lia)) as E2.
  pose proof (mat4Mul_entry A B 3 3 ltac:(lia) ltac:(lia)) as E3.
  cbn [Nat.mul Nat.add] in E0, E1, E2, E3. rewrite E0, E1, E2, E3.
  rewrite A12, A13, A14, A15, B12, B13, B14, B15.
  rewrite !bottom_entry by (apply Hfin; lia). reflexivity.
Qed.

(** X3: the product of two matrices with bottom row [0, 0, 0, 1] has bottom
    row [0, 0, 0, 1] exactly, provided the upper three rows of the right
    factor are finite (a NaN or an infinity there would turn [0 * x] into
    NaN). *)
Theorem mat4Mul_homogeneous (A B : list float) :
  mat4Bottom A = [0; 0; 0; 1] → mat4Bottom B = [0; 0; 0; 1] →
  (∀ i, (i < 12)%nat → is_finite (get B i) = true) →
  mat4Bottom (mat4Mul A B) = [0; 0; 0; 1].
Proof. apply mat4Mul_bottom. Qed.

End Matrices.

(** ** Forward kinematics, continued *)

Lemma all_finite_get l i :
  all_finite l = true → i < length l → is_finite (get l i) = true.
Proof.
  intros Hall Hi. unfold all_finite in Hall. rewrite forallb_forall in Hall.
  destruct (lookup_lt_is_Some_2 l i Hi) as [x Hx].
  rewrite (get_lookup _ _ _ Hx). apply Hall.
  apply list_elem_of_In. by eapply list_elem_of_lookup_2.
Qed.

Lemma dh_row_lookup r i d a alpha :
  dh r !! i = Some (d, a, alpha) → dh_row r i = (d, a, alpha).
Proof. unfold dh_row. by intros ->. Qed.

Section FKMore.
Context {math : MathImpl}.

Lemma fk_eq_frames r a a' :
  (∀ i, i ≤ nJoints r → frame (fk r a) i = frame (fk r a') i) → fk r a = fk r a'.
Proof.
  intros Hfr. apply list_eq. intros i.
  destruct (decide (i ≤ nJoints r)) as [Hi|Hi].
  - by rewrite !fk_lookup, Hfr by done.
  - by rewrite !lookup_ge_None_2 by (rewrite length_fk; lia).
Qed.

Lemma fk_frame_agree (r : Robot) (a a' : list float) (i : nat) :
  i ≤ nJoints r → (∀ j, j < i → get a j = get a' j) →
  frame (fk r a) i = frame (fk r a') i.
Proof.
  induction i as [|i IH]; intros Hi Hsame.
  - by rewrite !fk_frame_0.
  - rewrite !fk_frame_S by lia. rewrite IH by (lia || (intros; apply Hsame; lia)).
    by rewrite (Hsame i) by lia.
Qed.

(** X4: frame [i] of the chain depends on the angles of the joints before
    [i] only: two angle vectors that agree below [i] give the same frame
    [i]. *)
Theorem fk_frame_prefix (r : Robot) (a a' : list float) (i : nat) :
  i ≤ nJoints r → (∀ j, j < i → get a j = get a' j) →
  frame (fk r a) i = frame (fk r a') i.
Proof. apply fk_frame_agree. Qed.

(** X5: [fk] reads the first [nJoints] angles only; components past the
    joint count do not change the chain. *)
Theorem fk_ignores_extra (r : Robot) (a extra : list float) :
  nJoints r ≤ length a → fk r (a ++ extra) = fk r a.
Proof.
  intros Hlen. apply fk_eq_frames. intros i Hi. apply fk_frame_agree; [done|].
  intros j Hj. unfold get. by rewrite lookup_app_l by lia.
Qed.

(** X6: every pose of the chain is an array of 16 numbers, whatever the
    angles, so [mat4Pos] and [mat4AxisZ] never read a missing element. *)
Theorem fk_frames_shape (r : Robot) (a : list float) (i : nat) :
  i ≤ nJoints r → length (frame (fk r a) i) = 16.
Proof.
  destruct i as [|i]; intros Hi.
  - by rewrite fk_frame_0.
  - rewrite fk_frame_S by lia. apply length_mat4Mul.
Qed.

(** X7: when every DH transform met along the chain has finite entries,
    every pose of the chain keeps the bottom row [0, 0, 0, 1] exactly. *)
Theorem fk_frames_homogeneous (r : Robot) (a : list float) :
  nJoints r = length (dh r) →
  (∀ j d a' alpha, j < nJoints r → dh r !! j = Some (d, a', alpha) →
     all_finite (dhTransform (get a j) d a' alpha) = true) →
  ∀ i, i ≤ nJoints r → mat4Bottom (frame (fk r a) i) = [0; 0; 0; 1]%float.
Proof.
  intros Hn Hfin i. induction i as [|i IH]; intros Hi.
  - by rewrite fk_frame_0.
  - rewrite fk_frame_S by lia.
    destruct (lookup_lt_is_Some_2 (dh r) i ltac:(lia)) as [[[d a'] alpha] Hrow].
    assert (dh_row r i = (d, a', alpha)) as -> by (by apply dh_row_lookup).
    cbn [fst snd].
    apply mat4Mul_bottom; [apply IH; lia|done|].
    intros k Hk. apply all_finite_get; [by apply (Hfin i)|simpl; lia].
Qed.

End FKMore.

(** ** Clamping and construction, continued *)

Lemma Robot_new_cases key r :
  Robot_new key = inr r →
  r = construct preset_6dof ∨ r = construct preset_ur5
  ∨ r = construct preset_scara ∨ r = construct preset_3link.
Proof.
  unfold Robot_new, PRESETS_get. rewrite PRESETS_lookup.
  repeat case_decide; try (by case_bool_decide); intros [= <-]; auto.
Qed.

Lemma Robot_new_ordered key r : Robot_new key = inr r → ordered_limits r = true.
Proof. by intros [->|[->|[->| ->]]]%Robot_new_cases; vm_compute. Qed.

Lemma limit_lookup r i lo hi : limits r !! i = Some (lo, hi) → limit r i = (lo, hi).
Proof. unfold limit. by intros ->. Qed.

Section ClampMore.
Variable r : Robot.

(** X8: [clampAngles] returns a vector of the length of its argument, and
    every component at or past the joint count is [0] in it, whatever it
    was in the argument. *)
Theorem clampAngles_shape (v : list float) :
  length (clampAngles r v) = length v
  ∧ ∀ i, nJoints r ≤ i → i < length v → get (clampAngles r v) i = 0%float.
Proof.
  split; [apply length_clampAngles|].
  intros i Hn Hi. rewrite get_clampAngles by done. by case_decide; [lia|].
Qed.

(** X9: clamping does not repair NaN: a NaN angle of a joint stays NaN,
    whatever the limits. *)
Theorem clampAngles_nan (v : list float) (i : nat) :
  i < nJoints r → i < length v → is_nan (get v i) = true →
  get (clampAngles r v) i = nan.
Proof.
  intros Hn Hi Hnan. rewrite get_clampAngles by done. case_decide; [|lia].
  unfold clamp. rewrite (FloatOrder.Math_min_is_nan _ (get v i)).
  - apply FloatOrder.Math_max_nan_r.
  - by rewrite Hnan, orb_true_r.
Qed.

End ClampMore.

(** X10: for a constructed model, the clamp of a vector of the joint count
    without NaN lies within the joint limits. *)
Theorem clampAngles_within_limits (presetKey : string) (r : Robot) (v : list float) :
  Robot_new presetKey = inr r →
  length v = nJoints r →
  (∀ i, i < nJoints r → is_nan (get v i) = false) →
  within_limits r (clampAngles r v) = true.
Proof.
  intros Hr Hlen Hnan.
  pose proof (Robot_new_ordered _ _ Hr) as Hord.
  unfold within_limits. apply andb_true_iff. split.
  { apply bool_decide_eq_true. by rewrite length_clampAngles. }
  unfold ordered_limits in Hord. rewrite forallb_forall in Hord |- *.
  intros [[lo hi] y] [i Hi]%list_elem_of_In%list_elem_of_lookup_1.
  apply lookup_zip_with_Some in Hi as (l & y' & [= <- <-] & Hl & Hy).
  assert (i < nJoints r) as Hin.
  { apply lookup_lt_Some in Hy. rewrite length_clampAngles in Hy. lia. }
  assert (y = clamp lo hi (get v i)) as ->.
  { rewrite <-(get_lookup _ _ _ Hy), get_clampAngles by lia.
    case_decide; [|lia]. by rewrite (limit_lookup _ _ _ _ Hl). }
  apply andb_true_iff. apply FloatOrder.clamp_range; [|by apply Hnan].
  apply (Hord (lo, hi)). apply list_elem_of_In. by eapply list_elem_of_lookup_2.
Qed.

(** X11: for a constructed model, [clampAngles] returns a vector within
    the limits unchanged. *)
Theorem clampAngles_unchanged (presetKey : string) (r : Robot) (v : list float) :
  Robot_new presetKey = inr r → within_limits r v = true → clampAngles r v = v.
Proof.
  intros (_ & Hwf & Hnz & _)%Robot_new_inr Hin. by apply within_limits_fixed.
Qed.

(** X12: every robot the constructor returns has as many DH rows and limit
    pairs as joints, starts at the all-zero pose, and has limits that are
    ordered, nonzero and contain that pose. *)
Theorem Robot_new_invariants (presetKey : string) (r : Robot) :
  Robot_new presetKey = inr r →
  (nJoints r = length (dh r) ∧ length (limits r) = nJoints r)
  ∧ angles r = Float64Array (nJoints r)
  ∧ ordered_limits r = true
  ∧ nonzero_limits r = true
  ∧ within_limits r (angles r) = true.
Proof.
  intros Hr. pose proof (Robot_new_ordered _ _ Hr) as Hord.
  pose proof (Robot_new_inr _ _ Hr) as (_ & (Hn & Hl & _) & Hnz & Hin).
  repeat split; try done.
  by destruct (Robot_new_cases _ _ Hr) as [->|[->|[->| ->]]].
Qed.

(** ** Inverse kinematics, continued *)

Lemma length_apply_update Jp v n a : length (apply_update Jp v n a) = length a.
Proof.
  unfold apply_update.
  apply (for_range_invariant (λ _ (b : list float), length b = length a)); [lia|done|].
  intros i b _ Hb. by rewrite length_set.
Qed.

Section IKMore.
Context {math : MathImpl}.
Variables (r : Robot) (target : list float).

Lemma length_ik_update lambda a : length (ik_update r target lambda a) = length a.
Proof. unfold ik_update. by rewrite length_clampAngles, length_apply_update. Qed.

Lemma ik_loop_length N tol lambda k iter a :
  length (ik_angles (ik_loop r target N tol lambda k iter a)) = length a.
Proof.
  revert iter a. induction k as [|k IH]; intros iter a; [reflexivity|].
  cbn [ik_loop]. case_match.
  - apply length_clampAngles.
  - by rewrite IH, length_ik_update.
Qed.

(** X13: the angle vector [solveIK] returns has the length of the start
    vector, on both exits. *)
Theorem solveIK_length (start : option (list float)) (opts : Options) :
  length (ik_angles (solveIK r target start opts)) = length (default (angles r) start).
Proof. unfold solveIK, solveIK_with. apply ik_loop_length. Qed.

Lemma ik_loop_outcome N tol lambda k iter a :
  let res := ik_loop r target N tol lambda k iter a in
  (converged res = true →
     (error res <? tol)%float = true ∧ (iter ≤ iterations res < iter + Z.of_nat k)%Z)
  ∧ (converged res = false →
     iterations res = N ∧ error res = distance r target (ik_angles res)).
Proof.
  revert iter a. induction k as [|k IH]; intros iter a res; subst res.
  { cbn [ik_loop converged error iterations ik_angles].
    split; [intros [=]|]. intros _. split; reflexivity. }
  cbn [ik_loop]. fold (distance r target a).
  destruct (distance r target a <? tol)%float eqn:Hd.
  - cbn [converged error iterations ik_angles].
    split; [|intros [=]]. intros _. split; [exact Hd|lia].
  - destruct (IH (iter + 1)%Z (ik_update r target lambda a)) as [Hc Hn].
    split; [|exact Hn]. intros Hconv. destruct (Hc Hconv) as [He Hi].
    split; [exact He|lia].
Qed.

(** X14: the two outcomes of [solveIK], for every model and start: with
    [converged = true] the reported error is below the tolerance and
    [0 <= iterations < maxIter]; with [converged = false],
    [iterations = maxIter] and the error is the distance at the returned
    angles. *)
Theorem solveIK_outcome (start : option (list float)) (opts : Options) :
  let res := solveIK r target start opts in
  (converged res = true →
     (error res <? ik_tol opts)%float = true
     ∧ (0 ≤ iterations res < ik_maxIter opts)%Z)
  ∧ (converged res = false →
     iterations res = ik_maxIter opts
     ∧ error res = distance r target (ik_angles res)).
Proof.
  intros res. subst res. unfold solveIK, solveIK_with.
  match goal with |- context [ik_loop r target ?N ?t ?l ?k ?i ?a] =>
    pose proof (ik_loop_outcome N t l k i a) as [Hc Hn] end.
  split; [|exact Hn]. intros Hconv. destruct (Hc Hconv) as [He Hi].
  split; [exact He|]. lia.
Qed.

Lemma ik_loop_clamped N tol lambda k iter a :
  (k = 0 → clampAngles r a = a) →
  clampAngles r (ik_angles (ik_loop r target N tol lambda k iter a))
  = ik_angles (ik_loop r target N tol lambda k iter a).
Proof.
  revert iter a. induction k as [|k IH]; intros iter a Hk; [by apply Hk|].
  cbn [ik_loop]. case_match.
  - apply clampAngles_twice.
  - apply IH. intros _. apply ik_update_clamped.
Qed.

(** X15: with a positive iteration budget the angles [solveIK] returns are
    a fixed point of [clampAngles], from every start and on both exits. *)
Theorem solveIK_clamped (start : option (list float)) (opts : Options) :
  (0 < ik_maxIter opts)%Z →
  clampAngles r (ik_angles (solveIK r target start opts))
  = ik_angles (solveIK r target start opts).
Proof.
  intros HN. unfold solveIK, solveIK_with. apply ik_loop_clamped. lia.
Qed.

(** X16: an option given as [0] (for [maxIter]) or as a zero or NaN (for
    [tol] and [lambda]) is falsy under [||] and is replaced by its default:
    the call behaves as with no options. *)
Theorem solveIK_falsy_options (start : option (list float)) (opts : Options) :
  (∀ m, maxIter opts = Some m → m = 0%Z) →
  (∀ t, tol opts = Some t → is_zero t || is_nan t = true) →
  (∀ l, lambda opts = Some l → is_zero l || is_nan l = true) →
  solveIK r target start opts = solveIK r target start no_options.
Proof.
  intros Hm Ht Hl. unfold solveIK, ik_maxIter, ik_tol, ik_lambda.
  assert (∀ a d, (∀ t, a = Some t → is_zero t || is_nan t = true) →
            or_default a d = d) as Hfalsy.
  { intros [t|] d Ha; [|reflexivity]. cbn [or_default]. unfold truthy.
    specialize (Ha t eq_refl). by destruct (is_zero t), (is_nan t). }
  rewrite !Hfalsy by assumption.
  destruct (maxIter opts) as [m|]; [|reflexivity]. by rewrite (Hm m eq_refl).
Qed.

(** X17: with a negative [maxIter] the loop body never runs: [solveIK]
    returns the start angles as they are, not clamped, with
    [converged = false] and [iterations] the negative budget. *)
Theorem solveIK_negative_budget (start : option (list float)) (opts : Options) (m : Z) :
  maxIter opts = Some m → (m < 0)%Z →
  solveIK r target start opts
  = mkIKResult (default (angles r) start) false
      (distance r target (default (angles r) start)) m.
Proof.
  intros Hm Hneg. unfold solveIK, solveIK_with, ik_maxIter. rewrite Hm.
  cbn [or_defaultZ]. destruct (Z.eqb_spec m 0); [lia|].
  replace (Z.to_nat m) with 0 by lia. reflexivity.
Qed.

End IKMore.

(** ** The linear solver, continued *)

Section SolverMore.
Implicit Types (aug : matrix) (A b x : list float).

Lemma build_rows A b n : build A b n = build_row A b n <$> seq 0 n.
Proof.
  unfold build.
  apply (for_range_invariant (λ k (a : matrix), a = build_row A b n <$> seq 0 k));
    [lia|done|].
  intros i a _ ->. by rewrite seq_S, fmap_app.
Qed.

Lemma row_build A b n i : i < n → row (build A b n) i = build_row A b n i.
Proof.
  intros Hi. unfold row. rewrite build_rows, list_lookup_fmap, lookup_seq_lt by done.
  done.
Qed.

Lemma build_row_inv A b n i :
  length (build_row A b n i) = n + 1
  ∧ (∀ j, j < n → get (build_row A b n i) j = get A (i * n + j))
  ∧ get (build_row A b n i) n = get b i.
Proof.
  unfold build_row.
  set (P := λ (k : nat) (ρ : list float),
         length ρ = n + 1 ∧ ∀ j, j < k → get ρ j = get A (i * n + j)).
  match goal with |- context [for_range 0 n ?body ?s] =>
    pose proof (for_range_invariant P 0 n body s ltac:(lia)) as Hinv end.
  destruct Hinv as [Hl Hg].
  - split; [apply length_Float64Array|]. intros j Hj. lia.
  - intros k ρ Hk [Hl Hg]. split; [by rewrite length_set|].
    intros j Hj. destruct (decide (j = k)) as [->|Hne].
    + by rewrite get_set_eq by lia.
    + rewrite get_set_ne by done. apply Hg. lia.
  - split; [by rewrite length_set|]. split.
    + intros j Hj. rewrite get_set_ne by lia. by apply Hg.
    + by rewrite get_set_eq by lia.
Qed.

Lemma at_build A b n i j :
  i < n → j < n → at_ (build A b n) i j = get A (i * n + j).
Proof.
  intros Hi Hj. unfold at_. rewrite row_build by done. by apply build_row_inv.
Qed.

Lemma at_build_rhs A b n i : i < n → at_ (build A b n) i n = get b i.
Proof.
  intros Hi. unfold at_. rewrite row_build by done. by apply build_row_inv.
Qed.

Lemma build_ext A A' b b' n :
  (∀ k, k < n * n → get A k = get A' k) → (∀ i, i < n → get b i = get b' i) →
  build A b n = build A' b' n.
Proof.
  intros HA Hb. unfold build. apply for_range_ext. intros i aug Hi.
  rewrite (Hb i) by lia. do 3 f_equal. apply for_range_ext. intros j ρ Hj.
  rewrite HA; [done|nia].
Qed.

(** X18: [solveLinear] reads the first [n*n] coefficients and the first [n]
    right-hand sides only. *)
Theorem solveLinear_reads_prefix (A A' b b' : list float) (n : nat) :
  (∀ k, k < n * n → get A k = get A' k) → (∀ i, i < n → get b i = get b' i) →
  solveLinear A b n = solveLinear A' b' n.
Proof. intros HA Hb. unfold solveLinear. by rewrite (build_ext A A' b b'). Qed.

Lemma small_pivoted aug n col :
  length aug = n → col < n → small aug n → small (pivoted aug n col) n.
Proof.
  intros Hlen Hcol Hs r j Hr Hj. unfold pivoted.
  pose proof (pivot_search_spec aug n col) as Hp.
  destruct (pivot_search aug n col) as [mx mv]. cbn [fst].
  destruct Hp as (H1 & H2 & _).
  rewrite at_swap_rows by lia. apply Hs; [|done].
  repeat case_decide; lia.
Qed.

Lemma small_column_step aug n col :
  length aug = n → col < n → small aug n → small (column_step n col aug) n.
Proof.
  intros Hlen Hcol Hs. unfold column_step.
  pose proof (small_pivoted aug n col Hlen Hcol Hs) as Hp.
  by rewrite (Hp col col Hcol Hcol).
Qed.

Lemma small_forward aug n k :
  length aug = n → k ≤ n → small aug n → small (forward aug n k) n.
Proof.
  intros Hlen Hk Hs. induction k as [|k IH]; [done|].
  rewrite forward_S. apply small_column_step; [by rewrite length_forward|lia|].
  apply IH. lia.
Qed.

(** X19: when every coefficient is below the threshold [1e-12] in
    magnitude, no column is eliminated and the solution is the zero vector,
    whatever the right-hand side. *)
Theorem solveLinear_below_threshold (A b : list float) (n : nat) :
  (∀ k, k < n * n → (Math_abs (get A k) <? eps)%float = true) →
  solveLinear A b n = Float64Array n.
Proof.
  intros HA. apply list_eq_get.
  { by rewrite length_solveLinear, length_Float64Array. }
  rewrite length_solveLinear. intros i Hi. rewrite get_Float64Array by done.
  apply solveLinear_zero_fallback; [done|].
  apply FloatOrder.ltb_asym.
  apply (small_forward (build A b n) n n); [apply length_build|done| |done..].
  intros r j Hr Hj. rewrite at_build by done. apply HA. nia.
Qed.

(** X20: the 1x1 system [a x = b] is solved by [b / a] when [|a|] is above
    the threshold and by [0] otherwise, the threshold itself included. *)
Theorem solveLinear_1x1 (a b : float) :
  solveLinear [a] [b] 1 = [if (eps <? Math_abs a)%float then (b / a)%float else 0%float].
Proof.
  unfold solveLinear, forward. rewrite for_range_snoc, for_range_empty by lia.
  assert (build [a] [b] 1 = [[a; b]]) as -> by reflexivity.
  assert (column_step 1 0 [[a; b]] = [[a; b]]) as ->.
  { unfold column_step. case_match; reflexivity. }
  unfold back_substitute. rewrite for_down_S, for_down_0.
  unfold back_step. change (at_ [[a; b]] 0 0) with a.
  destruct (eps <? Math_abs a)%float; reflexivity.
Qed.

End SolverMore.

Section DampedMatrix.

Lemma damped_matrix_entries Jp n lambda :
  let g := gram_entry Jp n in
  let l2 := (lambda * lambda)%float in
  damped_matrix Jp n lambda =
    [ g 0%nat 0%nat + l2; g 0%nat 1%nat + 0;  g 0%nat 2%nat + 0;
      g 1%nat 0%nat + 0;  g 1%nat 1%nat + l2; g 1%nat 2%nat + 0;
      g 2%nat 0%nat + 0;  g 2%nat 1%nat + 0;  g 2%nat 2%nat + l2 ]%float.
Proof. reflexivity. Qed.

Lemma gram_entry_comm Jp n r c : gram_entry Jp n r c = gram_entry Jp n c r.
Proof.
  unfold gram_entry. apply for_range_ext. intros k s _.
  by rewrite FloatArith.mul_comm.
Qed.

(** X21: the damped matrix [J J^T + lambda^2 I] is symmetric exactly, entry
    by entry. *)
Theorem damped_matrix_symmetric (Jp : list float) (n : nat) (lambda : float) (r c : nat) :
  r < 3 → c < 3 →
  get (damped_matrix Jp n lambda) (r * 3 + c) = get (damped_matrix Jp n lambda) (c * 3 + r).
Proof.
  intros Hr Hc. rewrite damped_matrix_entries.
  destruct r as [|[|[|r]]]; try lia; destruct c as [|[|[|c]]]; try lia;
    cbn [Nat.mul Nat.add get lookup list_lookup default from_option id];
    try reflexivity; by rewrite gram_entry_comm.
Qed.

End DampedMatrix.

(** ** From forward to inverse kinematics *)

Section RoundTrip.
Context {math : MathImpl}.
#[local] Open Scope float_scope.

Lemma v3Sub_diag (p : list float) :
  length p = 3%nat → all_finite p = true → v3Sub p p = [0; 0; 0].
Proof.
  intros Hlen Hfin. unfold v3Sub.
  by rewrite !FloatArith.sub_diag by (apply all_finite_get; [done|lia]).
Qed.

(** X22: from forward to inverse kinematics: asked for the end-effector
    position of [fk] at the start angles themselves, [solveIK] converges in
    0 iterations with error 0, given a finite end-effector position, a
    positive tolerance and budget, and [Math.sqrt(0) = 0]. *)
Theorem solveIK_at_own_target (r : Robot) (a : list float) (opts : Options) :
  all_finite (end_effector r a) = true →
  Math_sqrt 0 = 0 →
  (0 < ik_maxIter opts)%Z →
  (0 <? ik_tol opts) = true →
  solveIK r (end_effector r a) (Some a) opts = mkIKResult (clampAngles r a) true 0 0.
Proof.
  intros Hfin Hsqrt HN Htol.
  assert (distance r (end_effector r a) a = 0) as Hd.
  { unfold distance, position_error. rewrite v3Sub_diag by done.
    unfold v3Len. cbn [get lookup list_lookup default from_option id].
    by change (0 * 0 + 0 * 0 + 0 * 0) with 0. }
  unfold solveIK, solveIK_with. cbn [default from_option id].
  destruct (Z.to_nat (ik_maxIter opts)) as [|k] eqn:Hk; [lia|].
  cbn [ik_loop]. fold (distance r (end_effector r a) a). by rewrite Hd, Htol.
Qed.

End RoundTrip.

(** ** Explicit forms *)

Lemma lookup_get (l : list float) (i : nat) : i < length l → l !! i = Some (get l i).
Proof.
  intros Hi. destruct (lookup_lt_is_Some_2 l i Hi) as [x Hx].
  by rewrite (get_lookup _ _ _ Hx).
Qed.

Section ExplicitJacobian.
Context {math : MathImpl}.

Lemma length_fk_frame r angles i : i ≤ nJoints r → length (frame (fk r angles) i) = 16.
Proof.
  destruct i as [|i]; intros Hi.
  - by rewrite fk_frame_0.
  - by rewrite fk_frame_S by lia.
Qed.

(** C3: [jacobian] returns two [3 x n] blocks.  For each joint [i], with
    [z = (z0, z1, z2)] the entries 2, 6, 10 of frame [i] of the chain of
    [fk] (its local Z axis), [p] the entries 3, 7, 11 of frame [i] (its
    origin), [e] the entries 3, 7, 11 of frame [n] (the end-effector
    position) and [d = e - p], column [i] of the position block is the cross
    product [z × d = (z1 d2 - z2 d1, z2 d0 - z0 d2, z0 d1 - z1 d0)], stored
    at the indices [i], [n + i], [2n + i], and column [i] of the orientation
    block is [z]. *)
Theorem jacobian_columns (r : Robot) (angles : list float) :
  let J := jacobian r angles in
  let n := nJoints r in
  let T := fk r angles in
  length (Jp J) = 3 * n ∧ length (Jr J) = 3 * n
  ∧ ∀ i, i < n →
      ∃ Ti Tn, T !! i = Some Ti ∧ T !! n = Some Tn
        ∧ column (Jp J) n i = v3Cross (mat4AxisZ Ti) (v3Sub (mat4Pos Tn) (mat4Pos Ti))
        ∧ column (Jr J) n i = mat4AxisZ Ti
        ∧ ∃ z0 z1 z2 p0 p1 p2 e0 e1 e2 : float,
            (Ti !! 2 = Some z0 ∧ Ti !! 6 = Some z1 ∧ Ti !! 10 = Some z2)
            ∧ (Ti !! 3 = Some p0 ∧ Ti !! 7 = Some p1 ∧ Ti !! 11 = Some p2)
            ∧ (Tn !! 3 = Some e0 ∧ Tn !! 7 = Some e1 ∧ Tn !! 11 = Some e2)
            ∧ (Jp J !! i = Some (z1 * (e2 - p2) - z2 * (e1 - p1))%float
               ∧ Jp J !! (n + i) = Some (z2 * (e0 - p0) - z0 * (e2 - p2))%float
               ∧ Jp J !! (2 * n + i) = Some (z0 * (e1 - p1) - z1 * (e0 - p0))%float)
            ∧ (Jr J !! i = Some z0 ∧ Jr J !! (n + i) = Some z1
               ∧ Jr J !! (2 * n + i) = Some z2).
Proof.
  intros J n T.
  destruct (jacobian_columns_inv r angles) as (HJp & HJr & Hcol). fold J n T in HJp, HJr, Hcol.
  split; [exact HJp|]. split; [exact HJr|].
  intros i Hi. destruct (Hcol i Hi) as (Ti & Tn & HTi & HTn & Hp & Hr).
  exists Ti, Tn. do 4 (split; [assumption|]).
  assert (length Ti = 16) as HlTi.
  { subst T. rewrite fk_lookup in HTi by (fold n; lia). injection HTi as <-.
    apply length_fk_frame. fold n. lia. }
  assert (length Tn = 16) as HlTn.
  { subst T. rewrite fk_lookup in HTn by (fold n; lia). injection HTn as <-.
    by apply length_fk_frame. }
  exists (get Ti 2), (get Ti 6), (get Ti 10), (get Ti 3), (get Ti 7), (get Ti 11),
    (get Tn 3), (get Tn 7), (get Tn 11).
  split; [repeat split; apply lookup_get; lia|].
  split; [repeat split; apply lookup_get; lia|].
  split; [repeat split; apply lookup_get; lia|].
  assert (get (Jp J) i = get Ti 6 * (get Tn 11 - get Ti 11)
                           - get Ti 10 * (get Tn 7 - get Ti 7))%float as Hp0
    by exact (f_equal (λ l, get l 0) Hp).
  assert (get (Jp J) (1 * n + i) = get Ti 10 * (get Tn 3 - get Ti 3)
                           - get Ti 2 * (get Tn 11 - get Ti 11))%float as Hp1
    by exact (f_equal (λ l, get l 1) Hp).
  assert (get (Jp J) (2 * n + i) = get Ti 2 * (get Tn 7 - get Ti 7)
                           - get Ti 6 * (get Tn 3 - get Ti 3))%float as Hp2
    by exact (f_equal (λ l, get l 2) Hp).
  assert (get (Jr J) i = get Ti 2) as Hr0 by exact (f_equal (λ l, get l 0) Hr).
  assert (get (Jr J) (1 * n + i) = get Ti 6) as Hr1
    by exact (f_equal (λ l, get l 1) Hr).
  assert (get (Jr J) (2 * n + i) = get Ti 10) as Hr2
    by exact (f_equal (λ l, get l 2) Hr).
  replace (1 * n + i) with (n + i) in Hp1, Hr1 by lia.
  split.
  - rewrite <-Hp0, <-Hp1, <-Hp2. repeat split; apply lookup_get; lia.
  - rewrite <-Hr0, <-Hr1, <-Hr2. repeat split; apply lookup_get; lia.
Qed.

End ExplicitJacobian.

Section ExplicitIK.
Context {math : MathImpl}.

(** C10: for a constructed model and start angles within its joint limits,
    a result with [converged = true] reports as [error] the Euclidean
    distance between the target and the end-effector position of [fk] at
    the returned angles, that is the square root of the sum of the squared
    differences between the target components and the entries 3, 7, 11 of
    the last frame of that chain, and this distance is below the
    tolerance. *)
Theorem solveIK_converged_error (presetKey : string) (r : Robot)
    (target : list float) (start : option (list float)) (opts : Options) :
  Robot_new presetKey = inr r →
  within_limits r (default (angles r) start) = true →
  let res := solveIK r target start opts in
  converged res = true →
  error res = v3Len (v3Sub target (mat4Pos (frame (fk r (ik_angles res)) (nJoints r))))
  ∧ (error res <? ik_tol opts)%float = true
  ∧ ∃ (Tn : list float) (ex ey ez : float),
      fk r (ik_angles res) !! nJoints r = Some Tn
      ∧ Tn !! 3 = Some ex ∧ Tn !! 7 = Some ey ∧ Tn !! 11 = Some ez
      ∧ error res
        = Math_sqrt ((get target 0 - ex) * (get target 0 - ex)
                     + (get target 1 - ey) * (get target 1 - ey)
                     + (get target 2 - ez) * (get target 2 - ez))%float.
Proof.
  intros Hr Hin res Hc.
  destruct (solveIK_converged_reported presetKey r target start opts Hr Hin Hc) as [He Ht].
  fold res in He, Ht.
  split; [exact He|]. split; [exact Ht|].
  set (Tn := frame (fk r (ik_angles res)) (nJoints r)) in *.
  assert (length Tn = 16) as Hl by (by apply length_fk_frame).
  exists Tn, (get Tn 3), (get Tn 7), (get Tn 11).
  split; [by apply fk_lookup|].
  do 3 (split; [apply lookup_get; lia|]).
  exact He.
Qed.

Variables (r : Robot) (target : list float).

(** The run of the loop, whichever way it ends. *)
Lemma ik_loop_run N tol lambda k iter a :
  let res := ik_loop r target N tol lambda k iter a in
  let q := ik_iterate r target lambda a in
  (converged res = false →
     (∀ j, j < k → (distance r target (q j) <? tol)%float = false)
     ∧ ik_angles res = q k)
  ∧ (converged res = true →
     ∃ j, j < k ∧ iterations res = (iter + Z.of_nat j)%Z
       ∧ (distance r target (q j) <? tol)%float = true
       ∧ (∀ i, i < j → (distance r target (q i) <? tol)%float = false)
       ∧ ik_angles res = clampAngles r (q j)
       ∧ error res = distance r target (q j)).
Proof.
  revert iter a. induction k as [|k IH]; intros iter a res q; subst res q.
  { cbn [ik_loop converged ik_angles]. split; [|intros [=]].
    intros _. split; [intros j Hj; lia|reflexivity]. }
  cbn [ik_loop]. fold (distance r target a).
  destruct (distance r target a <? tol)%float eqn:Hd.
  - cbn [converged ik_angles iterations error]. split; [intros [=]|]. intros _.
    exists 0. split; [lia|]. split; [lia|]. split; [exact Hd|].
    split; [intros i Hi; lia|]. split; reflexivity.
  - destruct (IH (iter + 1)%Z (ik_update r target lambda a)) as [Hn Hc]. split.
    + intros Hconv. destruct (Hn Hconv) as [Hall Hang]. split.
      * intros [|j] Hj; [exact Hd|]. rewrite ik_iterate_S. apply Hall. lia.
      * rewrite ik_iterate_S. exact Hang.
    + intros Hconv. destruct (Hc Hconv) as (j & Hj & Hit & Hdj & Hbefore & Hang & Herr).
      exists (S j). rewrite !ik_iterate_S. split; [lia|]. split; [lia|].
      split; [exact Hdj|]. split; [|split; assumption].
      intros [|i] Hi; [exact Hd|]. rewrite ik_iterate_S. apply Hbefore. lia.
Qed.

Lemma damped_matrix_lookup Jp n lambda i j :
  i < 3 → j < 3 →
  damped_matrix Jp n lambda !! (i * 3 + j)
  = Some (gram_entry Jp n i j + (if decide (i = j) then lambda * lambda else 0))%float.
Proof.
  intros Hi Hj. rewrite damped_matrix_entries.
  destruct i as [|[|[|i]]]; try lia; destruct j as [|[|[|j]]]; try lia; reflexivity.
Qed.

(** C8: [solveIK] recognises the options [maxIter] (maxIterations), [tol]
    (positionTolerance) and [lambda] (dampingFactor).  Positive values
    supplied under these names are the values it runs with, and an omitted
    option defaults to 200, 0.001 and 0.5: with [m], [t], [l] the values so
    chosen, the loop makes at most [m] rounds; it stops at the first round
    [k < m] whose distance is below [t], returning [iterations = k] and the
    clamped angles of that round; when no round below [m] passes that test
    it returns [iterations = m] and the angles after [m] updates; and each
    update solves with the matrix [J J^T + l^2 I]. *)
Theorem solveIK_options (start : option (list float)) (opts : Options) :
  (∀ m, maxIter opts = Some m → (0 < m)%Z) →
  (∀ t, tol opts = Some t → (0 <? t)%float = true) →
  (∀ l, lambda opts = Some l → (0 <? l)%float = true) →
  let m := default 200%Z (maxIter opts) in
  let t := default 0.001%float (tol opts) in
  let l := default 0.5%float (lambda opts) in
  let a0 := default (angles r) start in
  let q := ik_iterate r target l a0 in
  let res := solveIK r target start opts in
  res = solveIK_with r target a0 m t l
  ∧ (converged res = false →
       iterations res = m
       ∧ (∀ k, k < Z.to_nat m → (distance r target (q k) <? t)%float = false)
       ∧ ik_angles res = q (Z.to_nat m))
  ∧ (converged res = true →
       ∃ k, k < Z.to_nat m ∧ iterations res = Z.of_nat k
         ∧ (distance r target (q k) <? t)%float = true
         ∧ (∀ i, i < k → (distance r target (q i) <? t)%float = false)
         ∧ ik_angles res = clampAngles r (q k)
         ∧ error res = distance r target (q k))
  ∧ (∀ k, q (S k) = ik_update r target l (q k))
  ∧ (∀ a, ∃ M : list float,
       length M = 9
       ∧ (∀ i j, i < 3 → j < 3 →
            M !! (i * 3 + j)
            = Some (gram_entry (Jp (jacobian r a)) (nJoints r) i j
                    + (if decide (i = j) then l * l else 0))%float)
       ∧ ik_update r target l a
         = clampAngles r
             (apply_update (Jp (jacobian r a))
                (solveLinear M
                   [get (position_error r target a) 0;
                    get (position_error r target a) 1;
                    get (position_error r target a) 2] 3)
                (nJoints r) a)).
Proof.
  intros Hm Ht Hl m t l a0 q res.
  assert (res = solveIK_with r target a0 m t l) as Hres
    by exact (solveIK_options_resolved r target start opts Hm Ht Hl).
  split; [exact Hres|].
  destruct (ik_loop_run m t l (Z.to_nat m) 0 a0) as [Hn Hc].
  fold q in Hn, Hc. fold (solveIK_with r target a0 m t l) in Hn, Hc.
  rewrite <-Hres in Hn, Hc.
  split; [|split; [|split]].
  - intros Hconv. destruct (Hn Hconv) as [Hall Hang].
    split; [|split; assumption].
    rewrite Hres. unfold solveIK_with.
    destruct (ik_loop_outcome r target m t l (Z.to_nat m) 0 a0) as [_ Hout].
    apply Hout. fold (solveIK_with r target a0 m t l). by rewrite <-Hres.
  - intros Hconv. destruct (Hc Hconv) as (k & Hk & Hit & Hd & Hbefore & Hang & Herr).
    exists k. split; [exact Hk|]. split; [by rewrite Hit|].
    repeat split; assumption.
  - intros k. reflexivity.
  - intros a. exists (damped_matrix (Jp (jacobian r a)) (nJoints r) l).
    split; [reflexivity|]. split; [|reflexivity].
    intros i j Hi Hj. by apply damped_matrix_lookup.
Qed.

End ExplicitIK.

(* ================================================================= *)
(** * The further statements on concrete inputs *)

#[local] Open Scope float_scope.

Lemma mat4Mul_homogeneous_witness :
  mat4Bottom mat4Identity = [0; 0; 0; 1]
  ∧ mat4Bottom (dhTransform (math:=Math_taylor) 0.5 0 0.8 0) = [0; 0; 0; 1]
  ∧ (∀ i, (i < 12)%nat →
       is_finite (get (dhTransform (math:=Math_taylor) 0.5 0 0.8 0) i) = true)
  ∧ mat4Bottom (mat4Mul mat4Identity (dhTransform (math:=Math_taylor) 0.5 0 0.8 0))
    = [0; 0; 0; 1].
Proof.
  assert (∀ i, (i < 12)%nat →
       is_finite (get (dhTransform (math:=Math_taylor) 0.5 0 0.8 0) i) = true) as Hfin.
  { intros i Hi. do 12 (destruct i as [|i]; [vm_compute; reflexivity|]). lia. }
  assert (mat4Bottom mat4Identity = [0; 0; 0; 1]) as HA by reflexivity.
  assert (mat4Bottom (dhTransform (math:=Math_taylor) 0.5 0 0.8 0) = [0; 0; 0; 1])
    as HB by reflexivity.
  split; [exact HA|]. split; [exact HB|]. split; [exact Hfin|].
  exact (mat4Mul_homogeneous mat4Identity
           (dhTransform (math:=Math_taylor) 0.5 0 0.8 0) HA HB Hfin).
Defined.

Lemma fk_frame_prefix_witness :
  (2 ≤ nJoints robot_3link)%nat
  ∧ (∀ j, (j < 2)%nat → get [0; 0; 0] j = get [0; 0; 1] j)
  ∧ frame (fk (math:=Math_taylor) robot_3link [0; 0; 0]) 2
    = frame (fk (math:=Math_taylor) robot_3link [0; 0; 1]) 2.
Proof.
  assert (2 ≤ nJoints robot_3link)%nat as Hi by (simpl; lia).
  assert (∀ j, (j < 2)%nat → get [0; 0; 0] j = get [0; 0; 1] j) as Hsame.
  { intros j Hj. do 2 (destruct j as [|j]; [reflexivity|]). lia. }
  split; [exact Hi|]. split; [exact Hsame|].
  exact (fk_frame_prefix (math:=Math_taylor) robot_3link _ _ 2 Hi Hsame).
Defined.

Lemma fk_ignores_extra_witness :
  (nJoints robot_3link ≤ length inner_angles)%nat
  ∧ fk (math:=Math_taylor) robot_3link (inner_angles ++ [5])
    = fk (math:=Math_taylor) robot_3link inner_angles.
Proof.
  assert (nJoints robot_3link ≤ length inner_angles)%nat as Hlen by (simpl; lia).
  split; [exact Hlen|].
  exact (fk_ignores_extra (math:=Math_taylor) robot_3link inner_angles [5] Hlen).
Defined.

Lemma fk_frames_shape_witness :
  (3 ≤ nJoints robot_3link)%nat
  ∧ length (frame (fk (math:=Math_taylor) robot_3link inner_angles) 3) = 16%nat.
Proof.
  assert (3 ≤ nJoints robot_3link)%nat as Hi by (simpl; lia).
  split; [exact Hi|].
  exact (fk_frames_shape (math:=Math_taylor) robot_3link inner_angles 3 Hi).
Defined.

Lemma fk_frames_homogeneous_witness :
  nJoints robot_3link = length (dh robot_3link)
  ∧ (∀ j d a' alpha, (j < nJoints robot_3link)%nat →
       dh robot_3link !! j = Some (d, a', alpha) →
       all_finite (dhTransform (math:=Math_taylor) (get inner_angles j) d a' alpha) = true)
  ∧ (3 ≤ nJoints robot_3link)%nat
  ∧ mat4Bottom (frame (fk (math:=Math_taylor) robot_3link inner_angles) 3) = [0; 0; 0; 1].
Proof.
  assert (nJoints robot_3link = length (dh robot_3link)) as Hn by reflexivity.
  assert (∀ j d a' alpha, (j < nJoints robot_3link)%nat →
       dh robot_3link !! j = Some (d, a', alpha) →
       all_finite (dhTransform (math:=Math_taylor) (get inner_angles j) d a' alpha) = true)
    as Hfin.
  { intros j d a' alpha Hj Hrow.
    do 3 (destruct j as [|j]; [injection Hrow as <- <- <-; vm_compute; reflexivity|]).
    simpl in Hj. lia. }
  assert (3 ≤ nJoints robot_3link)%nat as Hi by (simpl; lia).
  split; [exact Hn|]. split; [exact Hfin|]. split; [exact Hi|].
  exact (fk_frames_homogeneous (math:=Math_taylor) robot_3link inner_angles Hn Hfin 3 Hi).
Defined.

Lemma clampAngles_shape_witness :
  (nJoints robot_3link ≤ 3)%nat ∧ (3 < length long_angles)%nat
  ∧ length (clampAngles robot_3link long_angles) = length long_angles
  ∧ get long_angles 3 = 5
  ∧ get (clampAngles robot_3link long_angles) 3 = 0.
Proof.
  destruct (clampAngles_shape robot_3link long_angles) as [Hlen Hzero].
  assert (nJoints robot_3link ≤ 3)%nat as Hn by (simpl; lia).
  assert (3 < length long_angles)%nat as Hi by (simpl; lia).
  split; [exact Hn|]. split; [exact Hi|]. split; [exact Hlen|].
  split; [reflexivity|]. exact (Hzero 3%nat Hn Hi).
Defined.

Lemma clampAngles_nan_witness :
  (0 < nJoints robot_3link)%nat ∧ (0 < length nan_angles)%nat
  ∧ is_nan (get nan_angles 0) = true
  ∧ get (clampAngles robot_3link nan_angles) 0 = nan.
Proof.
  assert (0 < nJoints robot_3link)%nat as Hn by (simpl; lia).
  assert (0 < length nan_angles)%nat as Hi by (simpl; lia).
  assert (is_nan (get nan_angles 0) = true) as Hnan by reflexivity.
  split; [exact Hn|]. split; [exact Hi|]. split; [exact Hnan|].
  exact (clampAngles_nan robot_3link nan_angles 0 Hn Hi Hnan).
Defined.

Lemma clampAngles_within_limits_witness :
  Robot_new "3link" = inr robot_3link
  ∧ length wide_angles = nJoints robot_3link
  ∧ (∀ i, (i < nJoints robot_3link)%nat → is_nan (get wide_angles i) = false)
  ∧ within_limits robot_3link wide_angles = false
  ∧ within_limits robot_3link (clampAngles robot_3link wide_angles) = true.
Proof.
  assert (Robot_new "3link" = inr robot_3link) as Hr by reflexivity.
  assert (length wide_angles = nJoints robot_3link) as Hlen by reflexivity.
  assert (∀ i, (i < nJoints robot_3link)%nat → is_nan (get wide_angles i) = false)
    as Hnan.
  { intros i Hi. do 3 (destruct i as [|i]; [reflexivity|]). simpl in Hi. lia. }
  split; [exact Hr|]. split; [exact Hlen|]. split; [exact Hnan|].
  split; [vm_compute; reflexivity|].
  exact (clampAngles_within_limits "3link" robot_3link wide_angles Hr Hlen Hnan).
Defined.

Lemma clampAngles_unchanged_witness :
  Robot_new "3link" = inr robot_3link
  ∧ within_limits robot_3link inner_angles = true
  ∧ clampAngles robot_3link inner_angles = inner_angles.
Proof.
  assert (Robot_new "3link" = inr robot_3link) as Hr by reflexivity.
  assert (within_limits robot_3link inner_angles = true) as Hin
    by (vm_compute; reflexivity).
  split; [exact Hr|]. split; [exact Hin|].
  exact (clampAngles_unchanged "3link" robot_3link inner_angles Hr Hin).
Defined.

Lemma Robot_new_invariants_witness :
  Robot_new "scara" = inr (construct preset_scara)
  ∧ nJoints (construct preset_scara) = 4%nat
  ∧ angles (construct preset_scara) = [0; 0; 0; 0]
  ∧ ordered_limits (construct preset_scara) = true
  ∧ nonzero_limits (construct preset_scara) = true
  ∧ within_limits (construct preset_scara) (angles (construct preset_scara)) = true.
Proof.
  assert (Robot_new "scara" = inr (construct preset_scara)) as Hr by reflexivity.
  destruct (Robot_new_invariants "scara" _ Hr) as (_ & Ha & Ho & Hz & Hw).
  split; [exact Hr|]. split; [reflexivity|]. split; [exact Ha|].
  split; [exact Ho|]. split; [exact Hz|exact Hw].
Defined.

Lemma solveIK_outcome_witness :
  converged (solveIK (math:=Math_taylor) robot_3link near_target None no_options) = true
  ∧ (error (solveIK (math:=Math_taylor) robot_3link near_target None no_options)
       <? ik_tol no_options) = true
  ∧ (0 ≤ iterations (solveIK (math:=Math_taylor) robot_3link near_target None no_options)
       < ik_maxIter no_options)%Z
  ∧ converged (solveIK (math:=Math_taylor) robot_3link far_target None five_rounds) = false
  ∧ iterations (solveIK (math:=Math_taylor) robot_3link far_target None five_rounds)
    = ik_maxIter five_rounds.
Proof.
  destruct (solveIK_outcome (math:=Math_taylor) robot_3link near_target None no_options)
    as [Hc _].
  destruct (solveIK_outcome (math:=Math_taylor) robot_3link far_target None five_rounds)
    as [_ Hn].
  assert (converged (solveIK (math:=Math_taylor) robot_3link near_target None
                       no_options) = true) as H1 by (vm_compute; reflexivity).
  assert (converged (solveIK (math:=Math_taylor) robot_3link far_target None
                       five_rounds) = false) as H2 by (vm_compute; reflexivity).
  destruct (Hc H1) as [He Hi]. destruct (Hn H2) as [Hit _].
  split; [exact H1|]. split; [exact He|]. split; [exact Hi|].
  split; [exact H2|exact Hit].
Defined.

Lemma solveIK_clamped_witness :
  (0 < ik_maxIter five_rounds)%Z
  ∧ clampAngles robot_3link
      (ik_angles (solveIK (math:=Math_taylor) robot_3link far_target (Some wide_angles)
                    five_rounds))
    = ik_angles (solveIK (math:=Math_taylor) robot_3link far_target (Some wide_angles)
                   five_rounds).
Proof.
  assert (0 < ik_maxIter five_rounds)%Z as HN by (vm_compute; reflexivity).
  split; [exact HN|].
  exact (solveIK_clamped (math:=Math_taylor) robot_3link far_target (Some wide_angles)
           five_rounds HN).
Defined.

Lemma solveIK_falsy_options_witness :
  (∀ m, maxIter falsy_options = Some m → m = 0%Z)
  ∧ (∀ t, tol falsy_options = Some t → is_zero t || is_nan t = true)
  ∧ (∀ l, lambda falsy_options = Some l → is_zero l || is_nan l = true)
  ∧ solveIK (math:=Math_taylor) robot_3link near_target None falsy_options
    = solveIK (math:=Math_taylor) robot_3link near_target None no_options.
Proof.
  assert (∀ m, maxIter falsy_options = Some m → m = 0%Z) as Hm.
  { intros m [= <-]. reflexivity. }
  assert (∀ t, tol falsy_options = Some t → is_zero t || is_nan t = true) as Ht.
  { intros t [= <-]. reflexivity. }
  assert (∀ l, lambda falsy_options = Some l → is_zero l || is_nan l = true) as Hl.
  { intros l [= <-]. reflexivity. }
  split; [exact Hm|]. split; [exact Ht|]. split; [exact Hl|].
  exact (solveIK_falsy_options (math:=Math_taylor) robot_3link near_target None
           falsy_options Hm Ht Hl).
Defined.

Lemma solveIK_negative_budget_witness :
  maxIter negative_budget = Some (-3)%Z ∧ (-3 < 0)%Z
  ∧ solveIK (math:=Math_taylor) robot_3link home_target (Some wide_angles) negative_budget
    = mkIKResult wide_angles false
        (distance (math:=Math_taylor) robot_3link home_target wide_angles) (-3).
Proof.
  assert (-3 < 0)%Z as Hneg by lia.
  split; [reflexivity|]. split; [exact Hneg|].
  exact (solveIK_negative_budget (math:=Math_taylor) robot_3link home_target
           (Some wide_angles) negative_budget (-3) eq_refl Hneg).
Defined.

Lemma solveLinear_reads_prefix_witness :
  (∀ k, (k < 2 * 2)%nat → get dependent_A k = get (dependent_A ++ [7]) k)
  ∧ (∀ i, (i < 2)%nat → get dependent_b i = get (dependent_b ++ [9]) i)
  ∧ solveLinear dependent_A dependent_b 2
    = solveLinear (dependent_A ++ [7]) (dependent_b ++ [9]) 2.
Proof.
  assert (∀ k, (k < 2 * 2)%nat → get dependent_A k = get (dependent_A ++ [7]) k) as HA.
  { intros k Hk. do 4 (destruct k as [|k]; [reflexivity|]). simpl in Hk. lia. }
  assert (∀ i, (i < 2)%nat → get dependent_b i = get (dependent_b ++ [9]) i) as Hb.
  { intros i Hi. do 2 (destruct i as [|i]; [reflexivity|]). lia. }
  split; [exact HA|]. split; [exact Hb|].
  exact (solveLinear_reads_prefix _ _ _ _ 2 HA Hb).
Defined.

Lemma solveLinear_below_threshold_witness :
  (∀ k, (k < 2 * 2)%nat → (Math_abs (get tiny_A k) <? eps) = true)
  ∧ solveLinear tiny_A dependent_b 2 = [0; 0].
Proof.
  assert (∀ k, (k < 2 * 2)%nat → (Math_abs (get tiny_A k) <? eps) = true) as HA.
  { intros k Hk. do 4 (destruct k as [|k]; [vm_compute; reflexivity|]). simpl in Hk. lia. }
  split; [exact HA|].
  exact (solveLinear_below_threshold tiny_A dependent_b 2 HA).
Defined.

Lemma damped_matrix_symmetric_witness :
  (0 < 3)%nat ∧ (1 < 3)%nat
  ∧ get (damped_matrix (Jp (jacobian (math:=Math_taylor) robot_3link inner_angles)) 3 0.5)
      (0 * 3 + 1)
    = get (damped_matrix (Jp (jacobian (math:=Math_taylor) robot_3link inner_angles)) 3 0.5)
        (1 * 3 + 0).
Proof.
  assert (0 < 3)%nat as H0 by lia. assert (1 < 3)%nat as H1 by lia.
  split; [exact H0|]. split; [exact H1|].
  exact (damped_matrix_symmetric _ 3 0.5 0 1 H0 H1).
Defined.

Lemma solveIK_at_own_target_witness :
  all_finite (end_effector (math:=Math_taylor) robot_3link inner_angles) = true
  ∧ Math_sqrt (MathImpl:=Math_taylor) 0 = 0
  ∧ (0 < ik_maxIter no_options)%Z
  ∧ (0 <? ik_tol no_options) = true
  ∧ solveIK (math:=Math_taylor) robot_3link
      (end_effector (math:=Math_taylor) robot_3link inner_angles)
      (Some inner_angles) no_options
    = mkIKResult (clampAngles robot_3link inner_angles) true 0 0.
Proof.
  assert (all_finite (end_effector (math:=Math_taylor) robot_3link inner_angles) = true)
    as Hfin by (vm_compute; reflexivity).
  assert (Math_sqrt (MathImpl:=Math_taylor) 0 = 0) as Hs by reflexivity.
  assert (0 < ik_maxIter no_options)%Z as HN by (vm_compute; reflexivity).
  assert ((0 <? ik_tol no_options) = true) as Ht by reflexivity.
  split; [exact Hfin|]. split; [exact Hs|]. split; [exact HN|]. split; [exact Ht|].
  exact (solveIK_at_own_target (math:=Math_taylor) robot_3link inner_angles no_options
           Hfin Hs HN Ht).
Defined.

Lemma jacobian_columns_witness :
  (1 < nJoints robot_3link)%nat
  ∧ Jp (jacobian (math:=Math_taylor) robot_3link [0; 0; 0])
    = [0; 0; 0; 1.7999999999999998; 0.99999999999999978; 0.39999999999999991; 0; 0; 0]
  ∧ Jr (jacobian (math:=Math_taylor) robot_3link [0; 0; 0])
    = [0; 0; 0; 0; 0; 0; 1; 1; 1]
  ∧ column (Jp (jacobian (math:=Math_taylor) robot_3link [0; 0; 0])) 3 1
    = [0; 0.99999999999999978; 0]
  ∧ ∃ Ti Tn,
      fk (math:=Math_taylor) robot_3link [0; 0; 0] !! 1%nat = Some Ti
      ∧ fk (math:=Math_taylor) robot_3link [0; 0; 0] !! 3%nat = Some Tn
      ∧ column (Jp (jacobian (math:=Math_taylor) robot_3link [0; 0; 0])) 3 1
        = v3Cross (mat4AxisZ Ti) (v3Sub (mat4Pos Tn) (mat4Pos Ti))
      ∧ column (Jr (jacobian (math:=Math_taylor) robot_3link [0; 0; 0])) 3 1
        = mat4AxisZ Ti
      ∧ ∃ z0 z1 z2 p0 p1 p2 e0 e1 e2 : float,
          (Ti !! 2%nat = Some z0 ∧ Ti !! 6%nat = Some z1 ∧ Ti !! 10%nat = Some z2)
          ∧ (Ti !! 3%nat = Some p0 ∧ Ti !! 7%nat = Some p1 ∧ Ti !! 11%nat = Some p2)
          ∧ (Tn !! 3%nat = Some e0 ∧ Tn !! 7%nat = Some e1 ∧ Tn !! 11%nat = Some e2)
          ∧ (Jp (jacobian (math:=Math_taylor) robot_3link [0; 0; 0]) !! 1%nat
               = Some (z1 * (e2 - p2) - z2 * (e1 - p1))
             ∧ Jp (jacobian (math:=Math_taylor) robot_3link [0; 0; 0]) !! (3 + 1)%nat
               = Some (z2 * (e0 - p0) - z0 * (e2 - p2))
             ∧ Jp (jacobian (math:=Math_taylor) robot_3link [0; 0; 0]) !! (2 * 3 + 1)%nat
               = Some (z0 * (e1 - p1) - z1 * (e0 - p0)))
          ∧ (Jr (jacobian (math:=Math_taylor) robot_3link [0; 0; 0]) !! 1%nat = Some z0
             ∧ Jr (jacobian (math:=Math_taylor) robot_3link [0; 0; 0]) !! (3 + 1)%nat
               = Some z1
             ∧ Jr (jacobian (math:=Math_taylor) robot_3link [0; 0; 0]) !! (2 * 3 + 1)%nat
               = Some z2).
Proof.
  destruct (jacobian_columns (math:=Math_taylor) robot_3link [0; 0; 0])
    as (_ & _ & Hcol).
  assert (1 < nJoints robot_3link)%nat as Hi by (simpl; lia).
  split; [exact Hi|]. split; [vm_compute; reflexivity|].
  split; [vm_compute; reflexivity|]. split; [vm_compute; reflexivity|].
  exact (Hcol 1%nat Hi).
Defined.

Lemma solveIK_options_witness :
  (∀ m, maxIter custom_options = Some m → (0 < m)%Z)
  ∧ (∀ t, tol custom_options = Some t → (0 <? t) = true)
  ∧ (∀ l, lambda custom_options = Some l → (0 <? l) = true)
  ∧ solveIK (math:=Math_taylor) robot_3link near_target None custom_options
    = solveIK_with (math:=Math_taylor) robot_3link near_target (angles robot_3link)
        5 0.001 0.4
  ∧ solveIK (math:=Math_taylor) robot_3link near_target None custom_options
    = mkIKResult [-0.020580572464081043; 0.49866385608257807; 0.3186738996789284]
        false 0.12109178866636029 5
  ∧ solveIK (math:=Math_taylor) robot_3link near_target None loose_options
    = mkIKResult [0.19736842105263161; 0.10964912280701755; 0.043859649122807022]
        true 0.2333108226820475 1
  ∧ solveIK (math:=Math_taylor) robot_3link near_target None no_options
    = mkIKResult [-0.19322227028870456; 0.73181862028658218; 0.50733363211096161]
        true 0.00067790060537152618 18
  ∧ damped_matrix (Jp (jacobian (math:=Math_taylor) robot_3link [0; 0; 0])) 3 0.4
    = [0.16000000000000003; 0; 0; 0; 4.5599999999999987; 0; 0; 0; 0.16000000000000003]
  ∧ (∀ k, (k < 5)%nat →
       (distance (math:=Math_taylor) robot_3link near_target
          (ik_iterate (math:=Math_taylor) robot_3link near_target 0.4
             (angles robot_3link) k) <? 0.001) = false)
  ∧ ik_angles (solveIK (math:=Math_taylor) robot_3link near_target None custom_options)
    = ik_iterate (math:=Math_taylor) robot_3link near_target 0.4 (angles robot_3link) 5.
Proof.
  assert (∀ m, maxIter custom_options = Some m → (0 < m)%Z) as Hm.
  { intros m [= <-]. lia. }
  assert (∀ t, tol custom_options = Some t → (0 <? t) = true) as Ht.
  { intros t [=]. }
  assert (∀ l, lambda custom_options = Some l → (0 <? l) = true) as Hl.
  { intros l [= <-]. reflexivity. }
  destruct (solveIK_options (math:=Math_taylor) robot_3link near_target None
              custom_options Hm Ht Hl) as (Hres & Hn & _).
  assert (converged (solveIK (math:=Math_taylor) robot_3link near_target None
                       custom_options) = false) as Hconv by (vm_compute; reflexivity).
  destruct (Hn Hconv) as (_ & Hall & Hang).
  split; [exact Hm|]. split; [exact Ht|]. split; [exact Hl|].
  split; [exact Hres|]. split; [vm_compute; reflexivity|].
  split; [vm_compute; reflexivity|]. split; [vm_compute; reflexivity|].
  split; [vm_compute; reflexivity|]. split; [exact Hall|exact Hang].
Defined.

Lemma solveIK_converged_error_witness :
  Robot_new "3link" = inr robot_3link
  ∧ within_limits robot_3link (angles robot_3link) = true
  ∧ converged (solveIK (math:=Math_taylor) robot_3link near_target None no_options) = true
  ∧ solveIK (math:=Math_taylor) robot_3link near_target None no_options
    = mkIKResult [-0.19322227028870456; 0.73181862028658218; 0.50733363211096161]
        true 0.00067790060537152618 18
  ∧ end_effector (math:=Math_taylor) robot_3link
      [-0.19322227028870456; 0.73181862028658218; 0.50733363211096161]
    = [1.5006091068683742; 0.50029755344673255; 0]
  ∧ error (solveIK (math:=Math_taylor) robot_3link near_target None no_options)
    = v3Len (math:=Math_taylor)
        (v3Sub near_target
           (mat4Pos (frame (fk (math:=Math_taylor) robot_3link
              (ik_angles (solveIK (math:=Math_taylor) robot_3link near_target None
                            no_options))) (nJoints robot_3link))))
  ∧ (error (solveIK (math:=Math_taylor) robot_3link near_target None no_options)
       <? ik_tol no_options) = true
  ∧ ∃ (Tn : list float) (ex ey ez : float),
      fk (math:=Math_taylor) robot_3link
        (ik_angles (solveIK (math:=Math_taylor) robot_3link near_target None no_options))
        !! nJoints robot_3link = Some Tn
      ∧ Tn !! 3%nat = Some ex ∧ Tn !! 7%nat = Some ey ∧ Tn !! 11%nat = Some ez
      ∧ error (solveIK (math:=Math_taylor) robot_3link near_target None no_options)
        = Math_sqrt (MathImpl:=Math_taylor)
            ((get near_target 0 - ex) * (get near_target 0 - ex)
             + (get near_target 1 - ey) * (get near_target 1 - ey)
             + (get near_target 2 - ez) * (get near_target 2 - ez)).
Proof.
  assert (Robot_new "3link" = inr robot_3link) as Hr by reflexivity.
  assert (within_limits robot_3link (default (angles robot_3link) None) = true) as Hin
    by (vm_compute; reflexivity).
  assert (converged (solveIK (math:=Math_taylor) robot_3link near_target None
                       no_options) = true) as Hc by (vm_compute; reflexivity).
  destruct (solveIK_converged_error (math:=Math_taylor) "3link" robot_3link
              near_target None no_options Hr Hin Hc) as (He & Ht & Hex).
  split; [exact Hr|]. split; [exact Hin|]. split; [exact Hc|].
  split; [vm_compute; reflexivity|]. split; [vm_compute; reflexivity|].
  split; [exact He|]. split; [exact Ht|exact Hex].
Defined.
